(** * Samarium fluorescence: the spectral-convolution model

    A shallow embedding of the computational cells of
    [Samarium_Fluorescence.ipynb]: the Lorentzian evaluator, the frequency
    grids, the spectral profiles, the discrete convolution, the saturation
    formula and the inhomogeneous sum.

    Numbers.  The notebook computes in IEEE double precision.  Here every
    float is an exact real number ([R]); rounding is not modelled.  An
    identity between values is therefore an identity up to rounding in the
    notebook.  The number of samples of [np.arange] is the one place where
    rounding changes more than last digits (see [np.arange_len]): the
    lemmas count samples over exact reals, and the theorems state sample
    counts for the notebook's own inputs, where rounding does not change
    them, or as bounds that rounding cannot cross.  Where
    Python or numpy raise an exception the embedding returns it.  Where
    numpy leaves the real numbers without raising (an [inf] or [nan],
    announced by a RuntimeWarning, after which the notebook goes on
    computing with it) the embedding answers [NotReal] and follows the
    values no further; an exception the notebook still raises after such a
    value is followed where whole cells are modelled ([run],
    [crystal_properties]). *)

From Stdlib Require Import Reals Lra Lia ZArith List.
Import ListNotations.
Open Scope R_scope.

(** ** Outcomes of Python evaluation *)

Inductive exn : Type :=
| ZeroDivisionError   (* Python float division by zero *)
| ValueError          (* raised by numpy on a malformed argument *)
| LengthError.        (* [np.arange] found no length: a ValueError or an
                         OverflowError, by numpy version and operands *)

Inductive result (A : Type) : Type :=
| Ok (a : A)          (* a value over the reals *)
| Raise (e : exn)     (* an exception: the run stops *)
| NotReal.            (* inf or nan: outside the embedding *)
Arguments Ok {A} a.
Arguments Raise {A} e.
Arguments NotReal {A}.

Definition bind {A B : Type} (c : result A) (k : A -> result B) : result B :=
  match c with
  | Ok a => k a
  | Raise e => Raise e
  | NotReal => NotReal
  end.

Declare Scope py_scope.
Delimit Scope py_scope with py.
Notation "x <- c ;; k" := (bind c (fun x => k))
  (at level 61, c at next level, right associativity) : py_scope.

(** ** numpy primitives used by the notebook *)

Module np.

(** [np.max] of the pair [(a, b)]. *)
Definition max2 (a b : R) : R := Rmax a b.

(** [np.arange(start, stop, step)]: the half-open range with
    [ceil((stop - start) / step)] samples [start + i * step].  The step of
    the notebook is a numpy scalar, so with a zero step the quotient is
    [nan] or infinite and numpy refuses to compute a length.

    In doubles numpy takes the ceiling of the rounded quotient and fills
    [start + i * delta] with [delta = (start + step) - start].  Where the
    exact quotient is an integer, as it is for the axis of the larger
    linewidth, the rounded quotient can lie just above it and the array
    then has one sample more than [arange_len] says; the samples drift
    from [start + i * step] by rounding errors that add up along the
    axis. *)
Definition arange_len (start stop step : R) : nat :=
  Z.to_nat (Zceil ((stop - start) / step)).

Definition arange (start stop step : R) : result (list R) :=
  if Req_dec_T step 0 then Raise LengthError
  else Ok (map (fun i => start + INR i * step)
               (seq 0 (arange_len start stop step))).

(** [np.linspace(start, stop, num)] with the end point included:
    [num] samples [start + i * step], [step = (stop - start) / (num - 1)]. *)
Definition linspace_step (start stop : R) (num : Z) : R :=
  (stop - start) / IZR (num - 1).

Definition linspace (start stop : R) (num : Z) : result (list R) :=
  if (num <? 0)%Z then Raise ValueError
  else Ok (map (fun i => start + INR i * linspace_step start stop num)
               (seq 0 (Z.to_nat num))).

(** [np.sum]: the entries added up from the left. *)
Definition sum (xs : list R) : R := fold_left Rplus xs 0.

(** [np.max] of a non-empty array. *)
Definition max (xs : list R) : result R :=
  match xs with
  | [] => Raise ValueError
  | x :: tl => Ok (fold_left Rmax tl x)
  end.

(** The inner product numpy's correlation kernel takes of two windows;
    [combine] stops at the shorter one. *)
Definition dot (xs ys : list R) : R :=
  sum (map (fun p => fst p * snd p) (combine xs ys)).

(** [multiarray.correlate(a, w, 'full')] for [len a >= len w >= 1], as the
    three loops of numpy's kernel: windows growing from the left edge,
    full windows sliding over [a], windows shrinking at the right edge. *)
Definition correlate_full (a w : list R) : list R :=
  let n1 := length a in
  let n2 := length w in
  map (fun i => dot (firstn (S i) a) (skipn (n2 - 1 - i) w))
      (seq 0 (n2 - 1))
  ++ map (fun i => dot (firstn n2 (skipn i a)) w)
      (seq 0 (n1 - n2 + 1))
  ++ map (fun i => dot (skipn (n1 - n2 + 1 + i) a) (firstn (n2 - 1 - i) w))
      (seq 0 (n2 - 1)).

(** [np.convolve(a, v, 'full')]: the longer array goes first, an empty
    array is refused, and the result is the correlation with the reversed
    second array. *)
Definition convolve (a v : list R) : result (list R) :=
  let '(a, v) := if (length a <? length v)%nat then (v, a) else (a, v) in
  match a, v with
  | [], _ => Raise ValueError
  | _, [] => Raise ValueError
  | _, _ => Ok (correlate_full a (rev v))
  end.

(** Operands of an element-wise operation on two one-dimensional arrays:
    equal lengths, or one array of length one broadcast over the other. *)
Definition broadcast (xs ys : list R) : result (list (R * R)) :=
  if (length xs =? length ys)%nat then Ok (combine xs ys)
  else match xs, ys with
       | [x], _ => Ok (map (fun y => (x, y)) ys)
       | _, [y] => Ok (map (fun x => (x, y)) xs)
       | _, _ => Raise ValueError
       end.

(** Division by a numpy scalar or array; a zero divisor yields [inf] or
    [nan]. *)
Definition divide1 (x y : R) : result R :=
  if Req_dec_T y 0 then NotReal else Ok (x / y).

Fixpoint divide_pairs (ps : list (R * R)) : result (list R) :=
  match ps with
  | [] => Ok []
  | (x, y) :: ps' =>
      (q <- divide1 x y ;; qs <- divide_pairs ps' ;; Ok (q :: qs))%py
  end.

Definition divide (xs ys : list R) : result (list R) :=
  (ps <- broadcast xs ys ;; divide_pairs ps)%py.

(** Element-wise product. *)
Definition multiply (xs ys : list R) : result (list R) :=
  (ps <- broadcast xs ys ;; Ok (map (fun p => fst p * snd p) ps))%py.

(** [np.sqrt] of a scalar; a negative argument yields [nan]. *)
Definition sqrt (x : R) : result R :=
  if Rlt_dec x 0 then NotReal else Ok (R_sqrt.sqrt x).

End np.

(** ** The notebook *)

(** Cell "Functions".  [Gamma] is a Python float in every call, so a zero
    width makes [1/(np.pi * (Gamma/2))] raise; see [Lorentz_array]. *)
Definition Lorentz (omega omega_0 Gamma : R) : R :=
  1 / (PI * (Gamma / 2)) * 1 / (1 + ((omega - omega_0) / (Gamma / 2)) ^ 2).

Definition Lorentz_array (omega : list R) (omega_0 Gamma : R)
  : result (list R) :=
  if Req_dec_T (PI * (Gamma / 2)) 0 then Raise ZeroDivisionError
  else Ok (map (fun x => Lorentz x omega_0 Gamma) omega).

(** Cell "Modelling the fluorescence/Rabi frequency": the grids. *)
Definition larger_line (Gamma_L Gamma_H : R) : R := np.max2 Gamma_L Gamma_H.

Definition d_omega (Gamma_L Gamma_H : R) : R :=
  larger_line Gamma_L Gamma_H / 100001.

Definition omega (Gamma_L Gamma_H : R) : result (list R) :=
  np.arange (- 3 * Gamma_L / 2) (3 * Gamma_L / 2) (d_omega Gamma_L Gamma_H).

Definition omega_0 (Gamma_L Gamma_H : R) : result (list R) :=
  np.arange (- 3 * Gamma_H / 2) (3 * Gamma_H / 2) (d_omega Gamma_L Gamma_H).

Definition omega_tot (Gamma_L Gamma_H : R) (om om0 : list R)
  : result (list R) :=
  np.linspace (- 3 * Gamma_L / 2 - 3 * Gamma_H / 2)
              (3 * Gamma_L / 2 + 3 * Gamma_H / 2)
              (Z.of_nat (length om) + Z.of_nat (length om0) - 1).

Record Grid : Type := mkGrid {
  g_omega : list R;       (* laser axis *)
  g_omega_0 : list R;     (* atomic axis *)
  g_omega_tot : list R    (* combined axis *)
}.

Definition grid (Gamma_L Gamma_H : R) : result Grid :=
  (om <- omega Gamma_L Gamma_H ;;
   om0 <- omega_0 Gamma_L Gamma_H ;;
   tot <- omega_tot Gamma_L Gamma_H om om0 ;;
   Ok (mkGrid om om0 tot))%py.

(** The spectral profiles (lines 214, 215). *)
Definition Phi_omega (Phi Gamma_L : R) (om : list R) : result (list R) :=
  (l <- Lorentz_array om 0 Gamma_L ;; Ok (map (fun y => Phi * y) l))%py.

Definition sigma_omega_0 (sigma Gamma_H : R) (om0 : list R)
  : result (list R) :=
  (l <- Lorentz_array om0 0 Gamma_H ;;
   Ok (map (fun y => sigma * (PI * Gamma_H / 2) * y) l))%py.

(** The convolution engine (line 217). *)
Definition R_omega_0 (Phi_om sigma_om0 : list R) (d_om : R)
  : result (list R) :=
  (c <- np.convolve Phi_om sigma_om0 ;; Ok (map (fun y => y * d_om) c))%py.

(** The atom density on the combined axis (line 219). *)
Definition N_Inhom_omega_0 (N_Inhom Gamma_In : R) (tot : list R)
  : result (list R) :=
  (l <- Lorentz_array tot 0 Gamma_In ;; Ok (map (fun y => N_Inhom * y) l))%py.

(** The saturation formula, per bin and on the array (line 220). *)
Definition Frac (Gamma_Ex r : R) : R := r / (Gamma_Ex + 2 * r).

Definition Frac_omega_0 (Gamma_Ex : R) (Rs : list R) : result (list R) :=
  np.divide Rs (map (fun r => Gamma_Ex + 2 * r) Rs).

(** The peak Rabi frequency (line 222). *)
Definition Omega_0 (Gamma_H : R) (Rs : list R) : result R :=
  (m <- np.max Rs ;; np.sqrt (m * Gamma_H))%py.

(** The scattering rate (line 223). *)
Definition Gamma_Sc (Gamma_Ex d_om : R) (N_om Fr : list R) : result R :=
  (nf <- np.multiply (map (fun y => y * d_om) N_om) Fr ;;
   Ok (Gamma_Ex * np.sum nf))%py.

(** Constants and units of the cell "Constants". *)
Definition h : R := 6626 / 10 ^ 37.
Definition e : R := 1602 / 10 ^ 22.
Definition mW : R := 1 / 10 ^ 3.
Definition pA : R := 1 / 10 ^ 12.

(** The scalar inputs.  The notebook derives the waist and the atom number
    from further measured quantities; they are inputs here. *)
Record params : Type := mkParams {
  nu : R;          (* laser centre frequency *)
  P : R;           (* peak power, mW *)
  w : R;           (* beam waist, cm *)
  Gamma_L : R;     (* laser linewidth *)
  Gamma_Ex : R;    (* excited-state linewidth *)
  sigma : R;       (* cross-section *)
  Eff : R;         (* detection efficiency *)
  N_Inhom : R;     (* number of resonant atoms *)
  Gamma_In : R;    (* inhomogeneous linewidth *)
  Gamma_H : R      (* homogeneous linewidth *)
}.

Record outputs : Type := mkOutputs {
  out_Omega_0 : result R;   (* [np.sqrt] never raises; it may yield nan *)
  out_Gamma_Sc : R;
  out_current : R
}.

(** Intensity and photon flux (cell "Optical properties").  The waist is a
    numpy scalar, so both quotients are numpy divisions. *)
Definition photon_flux (p : params) : result R :=
  (I <- np.divide1 (P p / PI) (w p ^ 2) ;;
   np.divide1 (I * mW) (h * nu p))%py.

(** Everything after the grids (lines 214 to 223). *)
Definition model (p : params) (Phi : R) (g : Grid) : result outputs :=
  let d_om := d_omega (Gamma_L p) (Gamma_H p) in
  (Phi_om <- Phi_omega Phi (Gamma_L p) (g_omega g) ;;
   sigma_om0 <- sigma_omega_0 (sigma p) (Gamma_H p) (g_omega_0 g) ;;
   Rs <- R_omega_0 Phi_om sigma_om0 d_om ;;
   N_om <- N_Inhom_omega_0 (N_Inhom p) (Gamma_In p) (g_omega_tot g) ;;
   Fr <- Frac_omega_0 (Gamma_Ex p) Rs ;;
   let Om := Omega_0 (Gamma_H p) Rs in
   Sc <- Gamma_Sc (Gamma_Ex p) d_om N_om Fr ;;
   Ok (mkOutputs Om Sc (Sc * Eff p * e / pA)))%py.


(** ** Definitions used to state the properties *)

(** The excitation fraction as the specification writes it. *)
Definition P_Ex (Gamma_Ex r : R) : R := (r / Gamma_Ex) / (1 + 2 * r / Gamma_Ex).

(** A uniformly spaced axis: sample [i] is [start + i * step]. *)
Definition uniform_from (start step : R) (l : list R) : Prop :=
  forall i, (i < length l)%nat -> nth i l 0 = start + INR i * step.


(** The linewidths the notebook itself uses (lines 100, 101 and 147). *)
Definition nb_Gamma_L : R := 2 * PI * 300.

Definition nb_Gamma_Ex : R := 2 * PI * 13.

Definition nb_Gamma_H : R := 10000 * nb_Gamma_Ex.


(** Finite sums [f 0 + ... + f (n-1)], added the way [np.sum] adds. *)
Definition sum_upto (n : nat) (f : nat -> R) : R := np.sum (map f (seq 0 n)).

(** The term the specification sums for the entry at index [k]:
    [a[j] * v[k - j]], an index outside an array contributing zero. *)
Definition conv_term (a v : list R) (k j : nat) : R :=
  nth j a 0 * (if (j <=? k)%nat then nth (k - j) v 0 else 0).

(** The sum of these terms over the indices [j] of [a]. *)
Definition conv_sum (a v : list R) (k : nat) : R :=
  sum_upto (length a) (conv_term a v k).

(** The convolution engine as the specification describes it. *)
Definition convolution_as_specified (Phi_om sigma_om0 : list R) (d : R)
  : Prop :=
  exists Rs, R_omega_0 Phi_om sigma_om0 d = Ok Rs /\
    Z.of_nat (length Rs)
    = (Z.of_nat (length Phi_om) + Z.of_nat (length sigma_om0) - 1)%Z /\
    forall k, (k < length Rs)%nat ->
      nth k Rs 0 = d * conv_sum Phi_om sigma_om0 k.

(** An entrywise non-negative array. *)
Definition nonneg (l : list R) : Prop := Forall (fun r => 0 <= r) l.

(** The cross-section of line 102. *)
Definition nb_sigma : R := 47 / 10 ^ 20.

(** The peak identity together with the claim that the peak value is the
    largest entry of the cross-section array. *)
Definition peak_is_maximum_entry (sigma Gamma_L Gamma_H : R) : Prop :=
  sigma * (PI * Gamma_H / 2) * Lorentz 0 0 Gamma_H = sigma /\
  exists om0 l,
    omega_0 Gamma_L Gamma_H = Ok om0 /\
    sigma_omega_0 sigma Gamma_H om0 = Ok l /\
    np.max l = Ok sigma.

(** The scattering rate of line 223 as a function of the combined axis and
    of the rate array, written as a sum over the bins. *)
Definition scattering (p : params) (d : R) (tot Rs : list R) : R :=
  Gamma_Ex p *
  sum_upto (length tot)
    (fun i => N_Inhom p * Lorentz (nth i tot 0) 0 (Gamma_In p) * d
              * Frac (Gamma_Ex p) (nth i Rs 0)).

(** The arrays of lines 214 and 215 for non-zero linewidths. *)
Definition flux_profile (p : params) (Phi : R) (om : list R) : list R :=
  map (fun y => Phi * y) (map (fun x => Lorentz x 0 (Gamma_L p)) om).

Definition cross_section_profile (p : params) (om0 : list R) : list R :=
  map (fun y => sigma p * (PI * Gamma_H p / 2) * y)
      (map (fun x => Lorentz x 0 (Gamma_H p)) om0).

(** The parameters with another atom number. *)
Definition with_N_Inhom (p : params) (N : R) : params :=
  mkParams (nu p) (P p) (w p) (Gamma_L p) (Gamma_Ex p) (sigma p) (Eff p)
           N (Gamma_In p) (Gamma_H p).

(** A small parameter set, for instances of the general statements. *)
Definition example_params : params := mkParams 1 1 1 1 2 3 1 5 4 2.




(** ** Further cells of the notebook *)

(** The remaining constants of the cell "Constants" that the cells below
    use. *)
Definition c : R := 2998 * 10 ^ 5.
Definition NA : R := 6022 * 10 ^ 20.
Definition nm : R := 1 / 10 ^ 9.

(** Cell "Optical properties" (lines 94 to 103).  The two half-widths of
    the beam, [0.054] and [0.026] in the notebook, are inputs.  [nu] is a
    Python float, so [c/nu] raises on zero; the waist is a numpy scalar. *)
Record optics : Type := mkOptics {
  op_lam : R;      (* vacuum wavelength, nm *)
  op_w : R;        (* beam waist, cm *)
  op_I : R;        (* intensity, mW/cm^2 *)
  op_Phi : R;      (* photon flux *)
  op_R12 : R       (* measured absorption rate *)
}.

Definition optical_properties (nu_Hz power a b : R) : result optics :=
  if Req_dec_T nu_Hz 0 then Raise ZeroDivisionError
  else
    (w_cm <- np.sqrt (2 * a * b) ;;
     I <- np.divide1 (power / PI) (w_cm ^ 2) ;;
     Phi <- np.divide1 (I * mW) (h * nu_Hz) ;;
     Ok (mkOptics (c / nu_Hz / nm) w_cm I Phi (47 / 10 ^ 20 * Phi)))%py.

(** Indexing an array; an index past the end raises [IndexError], an
    exception the cells above never meet. *)
Inductive indexed (A : Type) : Type :=
| Np (r : result A)
| IndexError.
Arguments Np {A} r.
Arguments IndexError {A}.

Definition bind_ix {A B : Type} (x : indexed A) (k : A -> indexed B)
  : indexed B :=
  match x with
  | Np (Ok a) => k a
  | Np (Raise ex) => Np (Raise ex)
  | Np NotReal => Np NotReal
  | IndexError => IndexError
  end.

Definition getitem (l : list R) (i : nat) : indexed R :=
  match nth_error l i with
  | Some x => Np (Ok x)
  | None => IndexError
  end.

(** Cell "Crystal properties" (lines 138 to 145), with the two isotope
    tables as inputs.  A zero average mass makes the division of line 144
    yield [inf] or [nan], which only warns: line 145 still indexes the
    table, so the two lookups are tested before the quotient is used. *)
Record crystal : Type := mkCrystal {
  cr_m_Sm_av : R;   (* average molar mass *)
  cr_n_Sm : R;      (* number density *)
  cr_N_Inhom : R    (* resonant atoms in one beam volume *)
}.

Definition crystal_properties
  (L rho_SrF2 prop : R) (m_Sm mole_fraction : list R) (w_cm : R)
  : indexed crystal :=
  bind_ix (Np (np.multiply m_Sm mole_fraction)) (fun prods =>
  let m_Sm_av := np.sum prods in
  bind_ix (getitem mole_fraction 1) (fun f1 =>
  bind_ix (getitem mole_fraction 3) (fun f3 =>
  bind_ix (Np (np.divide1 (rho_SrF2 * prop) m_Sm_av)) (fun q =>
  let n_Sm := q * NA in
  Np (Ok (mkCrystal m_Sm_av n_Sm
            ((f1 + f3) * n_Sm * L * PI * w_cm ^ 2))))))).

(** The diagnostics the last cell prints (lines 225 to 228). *)
Definition fraction_available (N_Inhom d_om : R) (N_om : list R)
  : result R :=
  np.divide1 (np.sum (map (fun y => y * d_om) N_om)) N_Inhom.

Definition peak_fraction_excited (Fr : list R) : result R := np.max Fr.

Definition peak_rate_in_linewidths (Gamma_Ex : R) (Rs : list R) : result R :=
  (m <- np.max Rs ;; np.divide1 m Gamma_Ex)%py.

Definition Rabi_frequency_Hz (Om : R) : R := Om / 2 / PI.

(** Arrays with strictly positive entries. *)
Definition positive (l : list R) : Prop := Forall (fun r => 0 < r) l.

(** Two arrays of literals agree when their entries do. *)
Ltac same_entries :=
  apply f_equal;
  repeat (apply (f_equal2 (@cons R)); [lra|]);
  reflexivity.

(** * Properties *)

(** ** The Lorentzian evaluator *)

Section LorentzFacts.

Variables (x x0 Gamma : R).
Hypothesis Gamma_pos : 0 < Gamma.

Lemma Lorentz_den_pos : 0 < 1 + ((x - x0) / (Gamma / 2)) ^ 2.
Proof.
  assert (0 <= ((x - x0) / (Gamma / 2)) ^ 2) by (apply pow2_ge_0). lra.
Qed.

Lemma Lorentz_peak_value : Lorentz x0 x0 Gamma = 1 / (PI * (Gamma / 2)).
Proof.
  unfold Lorentz. pose proof PI_RGT_0.
  replace ((x0 - x0) / (Gamma / 2)) with 0 by (field; lra).
  field. split; lra.
Qed.

Lemma Lorentz_pos : 0 < Lorentz x x0 Gamma.
Proof.
  unfold Lorentz. pose proof PI_RGT_0. pose proof Lorentz_den_pos.
  apply Rdiv_lt_0_compat; [|assumption].
  rewrite Rmult_1_r. apply Rdiv_lt_0_compat; [lra|].
  apply Rmult_lt_0_compat; lra.
Qed.

Lemma Lorentz_le_peak : Lorentz x x0 Gamma <= Lorentz x0 x0 Gamma.
Proof.
  rewrite Lorentz_peak_value. unfold Lorentz.
  pose proof PI_RGT_0. pose proof Lorentz_den_pos as Hd.
  assert (Hc : 0 < 1 / (PI * (Gamma / 2))).
  { apply Rdiv_lt_0_compat; [lra|]. apply Rmult_lt_0_compat; lra. }
  rewrite Rmult_1_r.
  apply Rmult_le_reg_r with (1 + ((x - x0) / (Gamma / 2)) ^ 2); [assumption|].
  unfold Rdiv at 1. rewrite Rmult_assoc, Rinv_l by lra.
  assert (0 <= ((x - x0) / (Gamma / 2)) ^ 2) by (apply pow2_ge_0). nra.
Qed.

Lemma Lorentz_lt_peak : x <> x0 -> Lorentz x x0 Gamma < Lorentz x0 x0 Gamma.
Proof.
  intros Hne. rewrite Lorentz_peak_value. unfold Lorentz.
  pose proof PI_RGT_0. pose proof Lorentz_den_pos as Hd.
  assert (Hc : 0 < 1 / (PI * (Gamma / 2))).
  { apply Rdiv_lt_0_compat; [lra|]. apply Rmult_lt_0_compat; lra. }
  rewrite Rmult_1_r.
  apply Rmult_lt_reg_r with (1 + ((x - x0) / (Gamma / 2)) ^ 2); [assumption|].
  unfold Rdiv at 1. rewrite Rmult_assoc, Rinv_l by lra.
  assert (0 < ((x - x0) / (Gamma / 2)) ^ 2).
  { assert ((x - x0) / (Gamma / 2) <> 0).
    { unfold Rdiv. apply Rmult_integral_contrapositive_currified; [lra|].
      apply Rinv_neq_0_compat. lra. }
    nra. }
  nra.
Qed.

End LorentzFacts.

Lemma Lorentz_closed_form (x x0 Gamma : R) :
  0 < Gamma ->
  Lorentz x x0 Gamma = (1 / PI) * (Gamma / 2) / ((x - x0) ^ 2 + (Gamma / 2) ^ 2).
Proof.
  intros HG. unfold Lorentz. pose proof PI_RGT_0.
  assert (0 <= (x - x0) ^ 2) by apply pow2_ge_0.
  assert (0 < (Gamma / 2) ^ 2) by (apply pow_lt; lra).
  field. repeat split; lra.
Qed.

(** C8.  For a positive width the code's form of the Lorentzian,
    [1/(pi*(Gamma/2)) * 1/(1 + ((x - x0)/(Gamma/2))^2)], is exactly the
    normalized density [(1/pi)*(Gamma/2) / ((x - x0)^2 + (Gamma/2)^2)]. *)
Theorem Lorentz_is_normalized_density (x x0 Gamma : R) :
  0 < Gamma ->
  Lorentz x x0 Gamma = (1 / PI) * (Gamma / 2) / ((x - x0) ^ 2 + (Gamma / 2) ^ 2).
Proof.
  intros HG. unfold Lorentz.
  pose proof PI_RGT_0 as Hpi.
  assert (Hsq : 0 <= (x - x0) ^ 2) by apply pow2_ge_0.
  assert (Hw : 0 < (Gamma / 2) ^ 2) by (apply pow_lt; lra).
  assert (Hden : (x - x0) ^ 2 + (Gamma / 2) ^ 2 <> 0) by lra.
  field. repeat split; lra.
Qed.

Lemma Lorentz_is_normalized_density_witness :
  0 < 2 /\ Lorentz 3 1 2 = (1 / PI) * (2 / 2) / ((3 - 1) ^ 2 + (2 / 2) ^ 2).
Proof.
  split; [lra | apply (Lorentz_is_normalized_density 3 1 2); lra].
Defined.

(** ** The saturation model *)

Lemma Frac_eq_P_Ex (Gamma_Ex r : R) :
  0 < Gamma_Ex -> 0 <= r -> Frac Gamma_Ex r = P_Ex Gamma_Ex r.
Proof.
  intros HG Hr. unfold Frac, P_Ex. field. split; lra.
Qed.

Lemma Frac_bounds (Gamma_Ex r : R) :
  0 < Gamma_Ex -> 0 <= r -> 0 <= Frac Gamma_Ex r < 1 / 2.
Proof.
  intros HG Hr. unfold Frac. split.
  - apply Rmult_le_pos; [assumption|].
    apply Rlt_le, Rinv_0_lt_compat. lra.
  - apply Rmult_lt_reg_r with (Gamma_Ex + 2 * r); [lra|].
    unfold Rdiv. rewrite Rmult_assoc, Rinv_l by lra. lra.
Qed.

Lemma Frac_strictly_increasing (Gamma_Ex r1 r2 : R) :
  0 < Gamma_Ex -> 0 <= r1 -> r1 < r2 -> Frac Gamma_Ex r1 < Frac Gamma_Ex r2.
Proof.
  intros HG H1 H12. unfold Frac.
  assert (Hd1 : 0 < Gamma_Ex + 2 * r1) by lra.
  assert (Hd2 : 0 < Gamma_Ex + 2 * r2) by lra.
  apply Rmult_lt_reg_r with (Gamma_Ex + 2 * r1); [assumption|].
  apply Rmult_lt_reg_r with (Gamma_Ex + 2 * r2); [assumption|].
  replace (r1 / (Gamma_Ex + 2 * r1) * (Gamma_Ex + 2 * r1) * (Gamma_Ex + 2 * r2))
    with (r1 * (Gamma_Ex + 2 * r2)) by (field; lra).
  replace (r2 / (Gamma_Ex + 2 * r2) * (Gamma_Ex + 2 * r1) * (Gamma_Ex + 2 * r2))
    with (r2 * (Gamma_Ex + 2 * r1)) by (field; lra).
  nra.
Qed.

Lemma Frac_monotone (Gamma_Ex r1 r2 : R) :
  0 < Gamma_Ex -> 0 <= r1 -> r1 <= r2 -> Frac Gamma_Ex r1 <= Frac Gamma_Ex r2.
Proof.
  intros HG H1 [Hlt | ->]; [|lra].
  apply Rlt_le, Frac_strictly_increasing; assumption.
Qed.

(** On an array of non-negative rates no divisor vanishes and line 220
    yields the per-bin fraction of every entry. *)
Lemma Frac_omega_0_nonneg (Gamma_Ex : R) (Rs : list R) :
  0 < Gamma_Ex -> Forall (fun r => 0 <= r) Rs ->
  Frac_omega_0 Gamma_Ex Rs = Ok (map (Frac Gamma_Ex) Rs).
Proof.
  intros HG HRs. unfold Frac_omega_0, np.divide, np.broadcast.
  rewrite length_map, Nat.eqb_refl. cbn [bind].
  induction HRs as [|r Rs Hr _ IH]; [reflexivity|].
  cbn [map combine np.divide_pairs]. unfold np.divide1 at 1.
  destruct (Req_dec_T (Gamma_Ex + 2 * r) 0) as [Hz|_]; [lra|].
  cbn [bind]. rewrite IH. reflexivity.
Qed.

(** C3.  For a positive decay rate the per-bin fraction [R/(Gamma_Ex + 2R)]
    of line 220 is the specification's [(R/Gamma_Ex)/(1 + 2R/Gamma_Ex)]; on
    rates [R >= 0] it lies in [[0, 1/2)] and is strictly increasing. *)
Theorem saturation_bound_and_monotonicity (Gamma_Ex : R) :
  0 < Gamma_Ex ->
  (forall Rs, Forall (fun r => 0 <= r) Rs ->
     Frac_omega_0 Gamma_Ex Rs = Ok (map (P_Ex Gamma_Ex) Rs)) /\
  (forall r, 0 <= r ->
     Frac Gamma_Ex r = P_Ex Gamma_Ex r /\ 0 <= Frac Gamma_Ex r < 1 / 2) /\
  (forall r1 r2, 0 <= r1 -> r1 < r2 -> Frac Gamma_Ex r1 < Frac Gamma_Ex r2).
Proof.
  intros HG. split; [|split].
  - intros Rs HRs. rewrite Frac_omega_0_nonneg by assumption.
    f_equal. apply map_ext_in. intros r Hin.
    apply Frac_eq_P_Ex; [assumption|].
    rewrite Forall_forall in HRs. apply HRs, Hin.
  - intros r Hr. split; [apply Frac_eq_P_Ex | apply Frac_bounds]; assumption.
  - intros r1 r2. apply Frac_strictly_increasing. assumption.
Qed.

Lemma saturation_bound_and_monotonicity_witness :
  0 < 2 /\
  Frac_omega_0 2 [0; 1] = Ok (map (P_Ex 2) [0; 1]) /\
  0 <= Frac 2 1 < 1 / 2 /\ Frac 2 1 < Frac 2 3.
Proof.
  assert (H2 : 0 < 2) by lra.
  destruct (saturation_bound_and_monotonicity 2 H2) as (Ha & Hb & Hc).
  split; [exact H2|]. split; [|split].
  - apply Ha. repeat constructor; lra.
  - apply (Hb 1). lra.
  - apply (Hc 1 3); lra.
Defined.

(** ** The grid builder *)

Lemma nth_map_seq (f : nat -> R) (n i : nat) :
  (i < n)%nat -> nth i (map f (seq 0 n)) 0 = f i.
Proof.
  intros Hi.
  rewrite (nth_indep _ 0 (f 0%nat)) by (rewrite length_map, length_seq; exact Hi).
  rewrite map_nth, seq_nth by exact Hi. reflexivity.
Qed.

Lemma last_map_seq (f : nat -> R) (n : nat) :
  last (map f (seq 0 (S n))) 0 = f n.
Proof.
  rewrite seq_S, map_app. simpl. apply last_last.
Qed.

Section ArangeFacts.

Variables (start stop step : R).
Hypothesis step_pos : 0 < step.
Hypothesis range_pos : start < stop.

Let n := np.arange_len start stop step.

Lemma arange_len_bounds :
  (1 <= n)%nat /\ (INR n - 1) * step < stop - start <= INR n * step.
Proof.
  subst n. unfold np.arange_len.
  set (q := (stop - start) / step).
  assert (Hq : 0 < q) by (apply Rdiv_lt_0_compat; lra).
  destruct (Zceil_bound q) as [Hlo Hhi].
  assert (Hz : (1 <= Zceil q)%Z).
  { apply Z.lt_pred_le. simpl. apply lt_IZR. lra. }
  split; [lia|].
  rewrite INR_IZR_INZ, Z2Nat.id by lia.
  assert (Hqs : q * step = stop - start) by (unfold q; field; lra).
  split; nra.
Qed.

Lemma arange_Ok :
  np.arange start stop step
  = Ok (map (fun i => start + INR i * step) (seq 0 n)).
Proof.
  unfold np.arange. destruct (Req_dec_T step 0); [lra | reflexivity].
Qed.

Lemma arange_facts :
  exists l, np.arange start stop step = Ok l /\
    length l = n /\ l <> [] /\
    uniform_from start step l /\
    nth 0 l 0 = start /\
    stop - step <= last l 0 < stop.
Proof.
  destruct arange_len_bounds as [Hn Hb].
  eexists. split; [apply arange_Ok|].
  assert (Hlen : length (map (fun i => start + INR i * step) (seq 0 n)) = n)
    by (rewrite length_map, length_seq; reflexivity).
  split; [exact Hlen|]. split; [|split; [|split]].
  - intros E. rewrite E in Hlen. simpl in Hlen. lia.
  - intros i Hi. rewrite Hlen in Hi. apply nth_map_seq. exact Hi.
  - rewrite nth_map_seq by lia. simpl. lra.
  - destruct n as [|m] eqn:En; [lia|].
    rewrite last_map_seq. rewrite S_INR in Hb. lra.
Qed.

End ArangeFacts.

Lemma larger_line_pos (Gamma_L Gamma_H : R) :
  0 < Gamma_L -> 0 < Gamma_H -> 0 < larger_line Gamma_L Gamma_H.
Proof.
  intros HL HH. unfold larger_line, np.max2.
  apply Rlt_le_trans with Gamma_L; [assumption | apply Rmax_l].
Qed.

Lemma d_omega_pos (Gamma_L Gamma_H : R) :
  0 < Gamma_L -> 0 < Gamma_H -> 0 < d_omega Gamma_L Gamma_H.
Proof.
  intros HL HH. unfold d_omega.
  apply Rdiv_lt_0_compat; [apply larger_line_pos; assumption | lra].
Qed.

Section GridFacts.

Variables (Gamma_L Gamma_H : R).
Hypothesis Gamma_L_pos : 0 < Gamma_L.
Hypothesis Gamma_H_pos : 0 < Gamma_H.

Let d := d_omega Gamma_L Gamma_H.
Let n1 := np.arange_len (- 3 * Gamma_L / 2) (3 * Gamma_L / 2) d.
Let n2 := np.arange_len (- 3 * Gamma_H / 2) (3 * Gamma_H / 2) d.
Let start_tot := - 3 * Gamma_L / 2 - 3 * Gamma_H / 2.
Let stop_tot := 3 * Gamma_L / 2 + 3 * Gamma_H / 2.
Let num := (Z.of_nat n1 + Z.of_nat n2 - 1)%Z.

Lemma d_pos : 0 < d.
Proof. apply d_omega_pos; assumption. Qed.

(** The axis of the larger linewidth spans exactly 300003 steps. *)
Lemma larger_span : 3 * larger_line Gamma_L Gamma_H = 300003 * d.
Proof. subst d. unfold d_omega. field. Qed.

Lemma axis_lengths :
  (1 <= n1)%nat /\ (1 <= n2)%nat /\ 300003 <= INR n1 + INR n2 - 1 /\
  (INR n1 + INR n2 - 2) * d < stop_tot - start_tot.
Proof.
  pose proof d_pos as Hd.
  destruct (arange_len_bounds (- 3 * Gamma_L / 2) (3 * Gamma_L / 2) d Hd)
    as [H1 [Hlo1 Hhi1]]; [lra|].
  destruct (arange_len_bounds (- 3 * Gamma_H / 2) (3 * Gamma_H / 2) d Hd)
    as [H2 [Hlo2 Hhi2]]; [lra|].
  fold n1 in H1, Hlo1, Hhi1. fold n2 in H2, Hlo2, Hhi2.
  split; [exact H1|]. split; [exact H2|].
  assert (HN1 : 1 <= INR n1) by (apply (le_INR 1); exact H1).
  assert (HN2 : 1 <= INR n2) by (apply (le_INR 1); exact H2).
  pose proof larger_span as Hspan. unfold larger_line, np.max2 in Hspan.
  subst start_tot stop_tot.
  split; [|lra].
  apply Rmult_le_reg_r with d; [exact Hd|].
  destruct (Rmax_case Gamma_L Gamma_H (fun m => m = Gamma_L \/ m = Gamma_H))
    as [E|E]; [left; reflexivity | right; reflexivity | |]; rewrite E in Hspan; nra.
Qed.

Lemma num_pos : (300003 <= num)%Z /\ IZR (num - 1) = INR n1 + INR n2 - 2.
Proof.
  destruct axis_lengths as (H1 & H2 & H3 & _). subst num.
  rewrite !INR_IZR_INZ in H3. split.
  - apply le_IZR. rewrite minus_IZR, plus_IZR. lra.
  - rewrite !minus_IZR, plus_IZR, !INR_IZR_INZ. lra.
Qed.

(** The step of the combined axis is strictly larger than the step shared
    by the two axes it combines. *)
Lemma combined_step_gt : d < np.linspace_step start_tot stop_tot num.
Proof.
  destruct axis_lengths as (_ & _ & H3 & H4).
  destruct num_pos as [_ Hn]. pose proof d_pos as Hd.
  unfold np.linspace_step. rewrite Hn.
  assert (Hp : 0 < INR n1 + INR n2 - 2) by lra.
  apply Rmult_lt_reg_r with (INR n1 + INR n2 - 2); [exact Hp|].
  unfold Rdiv. rewrite Rmult_assoc, Rinv_l by lra. lra.
Qed.

Lemma grid_facts :
  exists om om0 tot,
    grid Gamma_L Gamma_H = Ok (mkGrid om om0 tot) /\
    omega Gamma_L Gamma_H = Ok om /\
    omega_0 Gamma_L Gamma_H = Ok om0 /\
    length om = n1 /\ length om0 = n2 /\
    length tot = (n1 + n2 - 1)%nat /\
    uniform_from (- 3 * Gamma_L / 2) d om /\
    uniform_from (- 3 * Gamma_H / 2) d om0 /\
    uniform_from start_tot (np.linspace_step start_tot stop_tot num) tot /\
    (3 * Gamma_L / 2 - d <= last om 0 < 3 * Gamma_L / 2) /\
    (3 * Gamma_H / 2 - d <= last om0 0 < 3 * Gamma_H / 2).
Proof.
  pose proof d_pos as Hd.
  destruct (arange_facts (- 3 * Gamma_L / 2) (3 * Gamma_L / 2) d Hd)
    as (om & Eom & Lom & _ & Uom & _ & Bom); [lra|].
  destruct (arange_facts (- 3 * Gamma_H / 2) (3 * Gamma_H / 2) d Hd)
    as (om0 & Eom0 & Lom0 & _ & Uom0 & _ & Bom0); [lra|].
  fold n1 in Lom. fold n2 in Lom0.
  destruct num_pos as [Hnum _]. destruct axis_lengths as (H1 & H2 & _).
  exists om, om0,
    (map (fun i => start_tot + INR i * np.linspace_step start_tot stop_tot num)
         (seq 0 (Z.to_nat num))).
  assert (Etot : omega_tot Gamma_L Gamma_H om om0
                 = Ok (map (fun i => start_tot
                            + INR i * np.linspace_step start_tot stop_tot num)
                           (seq 0 (Z.to_nat num)))).
  { unfold omega_tot, np.linspace. rewrite Lom, Lom0. fold num.
    destruct (Z.ltb_spec num 0) as [Hneg|_]; [lia | reflexivity]. }
  assert (Hlen : Z.to_nat num = (n1 + n2 - 1)%nat) by (subst num; lia).
  split.
  { unfold grid. fold d. unfold omega at 1. fold d. rewrite Eom. simpl.
    unfold omega_0 at 1. fold d. rewrite Eom0. simpl.
    rewrite Etot. reflexivity. }
  split; [exact Eom|]. split; [exact Eom0|].
  split; [exact Lom|]. split; [exact Lom0|].
  split; [rewrite length_map, length_seq; exact Hlen|].
  split; [exact Uom|]. split; [exact Uom0|].
  split; [|split; [exact Bom | exact Bom0]].
  intros i Hi. rewrite length_map, length_seq in Hi.
  apply nth_map_seq. exact Hi.
Qed.

End GridFacts.

Lemma nb_Gamma_L_pos : 0 < nb_Gamma_L.
Proof. unfold nb_Gamma_L. pose proof PI_RGT_0. lra. Qed.

Lemma nb_Gamma_Ex_pos : 0 < nb_Gamma_Ex.
Proof. unfold nb_Gamma_Ex. pose proof PI_RGT_0. lra. Qed.

Lemma nb_Gamma_H_pos : 0 < nb_Gamma_H.
Proof. unfold nb_Gamma_H. pose proof nb_Gamma_Ex_pos. lra. Qed.

Lemma nb_d_omega : d_omega nb_Gamma_L nb_Gamma_H = 2 * PI * 130000 / 100001.
Proof.
  unfold d_omega, larger_line, np.max2. rewrite Rmax_right.
  - unfold nb_Gamma_H, nb_Gamma_Ex. field.
  - unfold nb_Gamma_L, nb_Gamma_H, nb_Gamma_Ex. pose proof PI_RGT_0. lra.
Qed.

Lemma arange_len_eq (start stop step : R) (z : Z) :
  0 < step -> (0 <= z)%Z ->
  (IZR z - 1) * step < stop - start <= IZR z * step ->
  np.arange_len start stop step = Z.to_nat z.
Proof.
  intros Hs Hz [Hlo Hhi]. unfold np.arange_len. f_equal.
  apply Zceil_eq.
  assert (E : (stop - start) / step * step = stop - start) by (field; lra).
  split.
  - apply Rmult_lt_reg_r with step; [exact Hs | lra].
  - apply Rmult_le_reg_r with step; [exact Hs | lra].
Qed.

(** With the notebook's linewidths the laser axis has 693 samples and the
    atomic axis 300003. *)
Lemma nb_axis_lengths :
  np.arange_len (- 3 * nb_Gamma_L / 2) (3 * nb_Gamma_L / 2)
                (d_omega nb_Gamma_L nb_Gamma_H) = Z.to_nat 693 /\
  np.arange_len (- 3 * nb_Gamma_H / 2) (3 * nb_Gamma_H / 2)
                (d_omega nb_Gamma_L nb_Gamma_H) = Z.to_nat 300003.
Proof.
  pose proof PI_RGT_0 as Hpi.
  assert (Hd : 0 < d_omega nb_Gamma_L nb_Gamma_H).
  { apply d_omega_pos; [apply nb_Gamma_L_pos | apply nb_Gamma_H_pos]. }
  split.
  - apply arange_len_eq; [exact Hd | lia |].
    rewrite nb_d_omega. unfold nb_Gamma_L. lra.
  - apply arange_len_eq; [exact Hd | lia |].
    rewrite nb_d_omega. unfold nb_Gamma_H, nb_Gamma_Ex. lra.
Qed.

Lemma last_as_nth (l : list R) : last l 0 = nth (length l - 1) l 0.
Proof.
  induction l as [|x l IH]; [reflexivity|].
  destruct l as [|y l]; [reflexivity|].
  change (last (x :: y :: l) 0) with (last (y :: l) 0). rewrite IH.
  simpl. rewrite Nat.sub_0_r. reflexivity.
Qed.



(** For all positive linewidths the combined axis starts where the two
    axes start, but every later sample lies strictly above the place the
    convolution index stands for. *)
Lemma combined_axis_misaligned (Gamma_L Gamma_H : R) :
  0 < Gamma_L -> 0 < Gamma_H ->
  exists om om0 tot,
    grid Gamma_L Gamma_H = Ok (mkGrid om om0 tot) /\
    nth 0 tot 0 = nth 0 om 0 + nth 0 om0 0 /\
    forall i, (1 <= i < length tot)%nat ->
      nth 0 om 0 + nth 0 om0 0 + INR i * d_omega Gamma_L Gamma_H
      < nth i tot 0.
Proof.
  intros HL HH.
  destruct (grid_facts Gamma_L Gamma_H HL HH)
    as (om & om0 & tot & G & _ & _ & L & L0 & Lt & U & U0 & Ut & _).
  destruct (axis_lengths Gamma_L Gamma_H HL HH) as (H1 & H2 & _).
  pose proof (combined_step_gt Gamma_L Gamma_H HL HH) as Hstep.
  assert (H0 : nth 0 om 0 = - 3 * Gamma_L / 2).
  { rewrite U by (rewrite L; exact H1). simpl. lra. }
  assert (H00 : nth 0 om0 0 = - 3 * Gamma_H / 2).
  { rewrite U0 by (rewrite L0; exact H2). simpl. lra. }
  exists om, om0, tot. split; [exact G|]. split.
  - rewrite Ut by (rewrite Lt; lia). rewrite H0, H00. simpl. lra.
  - intros i [Hi1 Hi2]. rewrite Ut by exact Hi2. rewrite H0, H00.
    apply (le_INR 1) in Hi1. simpl in Hi1.
    set (s := np.linspace_step _ _ _) in *.
    set (d := d_omega _ _) in *. nra.
Qed.

(** C1 on the notebook's own linewidths.  The laser and atomic axes share
    the step [d_omega] and have 693 and 300003 samples; the combined axis
    has the 300695 samples of the full convolution, but from index 1 on
    every sample lies strictly above
    [laser minimum + atomic minimum + i * d_omega]. *)
Theorem combined_axis_misaligned_on_notebook_inputs :
  exists om om0 tot,
    grid nb_Gamma_L nb_Gamma_H = Ok (mkGrid om om0 tot) /\
    uniform_from (nth 0 om 0) (d_omega nb_Gamma_L nb_Gamma_H) om /\
    uniform_from (nth 0 om0 0) (d_omega nb_Gamma_L nb_Gamma_H) om0 /\
    Z.of_nat (length om) = 693%Z /\
    Z.of_nat (length om0) = 300003%Z /\
    Z.of_nat (length tot) = 300695%Z /\
    nth 0 tot 0 = nth 0 om 0 + nth 0 om0 0 /\
    forall i, (1 <= i < length tot)%nat ->
      nth 0 om 0 + nth 0 om0 0 + INR i * d_omega nb_Gamma_L nb_Gamma_H
      < nth i tot 0.
Proof.
  pose proof nb_Gamma_L_pos as HL. pose proof nb_Gamma_H_pos as HH.
  destruct (grid_facts nb_Gamma_L nb_Gamma_H HL HH)
    as (om & om0 & tot & G & _ & _ & L & L0 & Lt & U & U0 & Ut & _).
  destruct nb_axis_lengths as [N1 N2].
  pose proof (combined_step_gt nb_Gamma_L nb_Gamma_H HL HH) as Hstep.
  rewrite N1 in L, Lt. rewrite N2 in L0, Lt.
  assert (H0 : nth 0 om 0 = - 3 * nb_Gamma_L / 2).
  { rewrite U by lia. simpl. lra. }
  assert (H00 : nth 0 om0 0 = - 3 * nb_Gamma_H / 2).
  { rewrite U0 by lia. simpl. lra. }
  exists om, om0, tot. split; [exact G|].
  split; [rewrite H0; exact U|]. split; [rewrite H00; exact U0|].
  split; [lia|]. split; [lia|]. split; [lia|]. split.
  - rewrite Ut by lia. rewrite H0, H00. simpl. lra.
  - intros i [Hi1 Hi2]. rewrite Ut by exact Hi2. rewrite H0, H00.
    apply (le_INR 1) in Hi1. simpl in Hi1.
    set (s := np.linspace_step _ _ _) in *.
    set (d := d_omega _ _) in *. nra.
Qed.

(** ** The convolution engine *)

Lemma fold_left_Rplus_acc (l : list R) (acc : R) :
  fold_left Rplus l acc = acc + fold_left Rplus l 0.
Proof.
  revert acc. induction l as [|x l IH]; intros acc; simpl; [lra|].
  rewrite (IH (acc + x)), (IH (0 + x)). lra.
Qed.

Lemma sum_cons (x : R) (l : list R) : np.sum (x :: l) = x + np.sum l.
Proof.
  unfold np.sum. simpl. rewrite fold_left_Rplus_acc. lra.
Qed.

Lemma sum_app (l1 l2 : list R) : np.sum (l1 ++ l2) = np.sum l1 + np.sum l2.
Proof.
  induction l1 as [|x l1 IH]; simpl.
  - unfold np.sum at 2. simpl. lra.
  - rewrite !sum_cons, IH. lra.
Qed.

Lemma sum_upto_0 (f : nat -> R) : sum_upto 0 f = 0.
Proof. reflexivity. Qed.

Lemma sum_upto_S (n : nat) (f : nat -> R) :
  sum_upto (S n) f = sum_upto n f + f n.
Proof.
  unfold sum_upto. rewrite seq_S, map_app, sum_app. simpl.
  rewrite sum_cons. change (np.sum []) with 0. lra.
Qed.

Lemma sum_upto_ext (n : nat) (f g : nat -> R) :
  (forall i, (i < n)%nat -> f i = g i) -> sum_upto n f = sum_upto n g.
Proof.
  induction n as [|n IH]; intros H; [reflexivity|].
  rewrite !sum_upto_S, IH, (H n) by (intros; try apply H; lia). reflexivity.
Qed.

Lemma sum_upto_zero (n : nat) (f : nat -> R) :
  (forall i, (i < n)%nat -> f i = 0) -> sum_upto n f = 0.
Proof.
  induction n as [|n IH]; intros H; [reflexivity|].
  rewrite sum_upto_S, IH, (H n) by (intros; try apply H; lia). lra.
Qed.

Lemma sum_upto_add (p m : nat) (f : nat -> R) :
  sum_upto (p + m) f = sum_upto p f + sum_upto m (fun t => f (p + t)%nat).
Proof.
  induction m as [|m IH].
  - rewrite Nat.add_0_r, sum_upto_0. lra.
  - rewrite Nat.add_succ_r, !sum_upto_S, IH. lra.
Qed.

(** A sum whose terms vanish outside the window [[p, p + m)]. *)
Lemma sum_upto_window (n p m : nat) (f : nat -> R) :
  (p + m <= n)%nat ->
  (forall j, (j < n)%nat -> (j < p \/ p + m <= j)%nat -> f j = 0) ->
  sum_upto n f = sum_upto m (fun t => f (p + t)%nat).
Proof.
  intros Hle Hz.
  replace n with (p + (m + (n - p - m)))%nat by lia.
  rewrite sum_upto_add, sum_upto_add.
  rewrite (sum_upto_zero p) by (intros; apply Hz; lia).
  rewrite (sum_upto_zero (n - p - m)) by (intros; apply Hz; lia).
  lra.
Qed.

Lemma sum_upto_rev (n : nat) (f : nat -> R) :
  sum_upto n f = sum_upto n (fun j => f (n - 1 - j)%nat).
Proof.
  induction n as [|n IH]; [reflexivity|].
  rewrite sum_upto_S.
  replace (S n) with (1 + n)%nat at 1 by lia.
  rewrite sum_upto_add. rewrite sum_upto_S, sum_upto_0.
  replace (S n - 1 - 0)%nat with n by lia.
  rewrite IH.
  rewrite (sum_upto_ext n (fun j => f (n - 1 - j)%nat)
                          (fun t => f (S n - 1 - (1 + t))%nat)).
  - lra.
  - intros i Hi. f_equal. lia.
Qed.

Lemma sum_upto_le (n : nat) (f g : nat -> R) :
  (forall i, (i < n)%nat -> f i <= g i) -> sum_upto n f <= sum_upto n g.
Proof.
  induction n as [|n IH]; intros H; [rewrite !sum_upto_0; lra|].
  rewrite !sum_upto_S.
  apply Rplus_le_compat; [apply IH; intros; apply H; lia | apply H; lia].
Qed.

Lemma sum_upto_nonneg (n : nat) (f : nat -> R) :
  (forall i, (i < n)%nat -> 0 <= f i) -> 0 <= sum_upto n f.
Proof.
  intros H. rewrite <- (sum_upto_zero n (fun _ => 0)) by reflexivity.
  apply sum_upto_le. exact H.
Qed.

(** Any array is the table of its entries, hence [np.sum] is a finite sum. *)
Lemma list_as_table (l : list R) :
  l = map (fun i => nth i l 0) (seq 0 (length l)).
Proof.
  apply nth_ext with (d := 0) (d' := 0).
  - rewrite length_map, length_seq. reflexivity.
  - intros i Hi. rewrite nth_map_seq by exact Hi. reflexivity.
Qed.

Lemma sum_as_sum_upto (l : list R) :
  np.sum l = sum_upto (length l) (fun i => nth i l 0).
Proof.
  unfold sum_upto. rewrite <- list_as_table. reflexivity.
Qed.

Lemma dot_nil_r (xs : list R) : np.dot xs [] = 0.
Proof. unfold np.dot. destruct xs; reflexivity. Qed.

Lemma dot_cons (x y : R) (xs ys : list R) :
  np.dot (x :: xs) (y :: ys) = x * y + np.dot xs ys.
Proof. unfold np.dot. simpl. apply sum_cons. Qed.

Lemma dot_as_sum (xs ys : list R) :
  np.dot xs ys = sum_upto (length xs) (fun t => nth t xs 0 * nth t ys 0).
Proof.
  revert ys. induction xs as [|x xs IH]; intros ys; [reflexivity|].
  destruct ys as [|y ys].
  - rewrite dot_nil_r. symmetry. apply sum_upto_zero.
    intros i _. destruct i; simpl; lra.
  - rewrite dot_cons, IH. simpl length.
    replace (S (length xs)) with (1 + length xs)%nat by lia.
    rewrite sum_upto_add, sum_upto_S, sum_upto_0. simpl. lra.
Qed.

Lemma conv_term_zero_above (a v : list R) (k j : nat) :
  (k < j)%nat -> conv_term a v k j = 0.
Proof.
  intros H. unfold conv_term.
  destruct (Nat.leb_spec j k); [lia | lra].
Qed.

Lemma conv_term_zero_below (a v : list R) (k j : nat) :
  (j + length v <= k)%nat -> conv_term a v k j = 0.
Proof.
  intros H. unfold conv_term.
  destruct (Nat.leb_spec j k); [|lra].
  rewrite (nth_overflow v) by lia. lra.
Qed.

Lemma conv_term_inside (a v : list R) (k j : nat) :
  (j <= k)%nat -> conv_term a v k j = nth j a 0 * nth (k - j) v 0.
Proof.
  intros H. unfold conv_term.
  destruct (Nat.leb_spec j k); [reflexivity | lia].
Qed.

Section CorrelateFacts.

Variables (a v : list R).
Let n1 := length a.
Let n2 := length v.
Hypothesis v_nonempty : (1 <= n2)%nat.
Hypothesis a_longer : (n2 <= n1)%nat.

(** Left edge: output [k < n2 - 1]. *)
Lemma correlate_left (k : nat) :
  (k < n2 - 1)%nat ->
  np.dot (firstn (S k) a) (skipn (n2 - 1 - k) (rev v)) = conv_sum a v k.
Proof.
  intros Hk. rewrite dot_as_sum, length_firstn. fold n1.
  replace (Nat.min (S k) n1) with (S k) by lia.
  unfold conv_sum. fold n1.
  rewrite (sum_upto_window n1 0 (S k)); [|lia|].
  - apply sum_upto_ext. intros t Ht. change (0 + t)%nat with t.
    rewrite conv_term_inside by lia.
    rewrite nth_firstn. destruct (Nat.ltb_spec t (S k)); [|lia].
    rewrite nth_skipn, rev_nth by (fold n2; lia). fold n2.
    do 2 f_equal. lia.
  - intros j _ [Hj|Hj]; [lia|]. apply conv_term_zero_above. lia.
Qed.

(** Middle: output [n2 - 1 + i] for [i <= n1 - n2]. *)
Lemma correlate_middle (i : nat) :
  (i < n1 - n2 + 1)%nat ->
  np.dot (firstn n2 (skipn i a)) (rev v) = conv_sum a v (n2 - 1 + i).
Proof.
  intros Hi. rewrite dot_as_sum, length_firstn, length_skipn. fold n1.
  replace (Nat.min n2 (n1 - i)) with n2 by lia.
  unfold conv_sum. fold n1.
  rewrite (sum_upto_window n1 i n2); [|lia|].
  - apply sum_upto_ext. intros t Ht.
    rewrite conv_term_inside by lia.
    rewrite nth_firstn. destruct (Nat.ltb_spec t n2); [|lia].
    rewrite nth_skipn, rev_nth by (fold n2; lia). fold n2.
    do 2 f_equal. lia.
  - intros j _ [Hj|Hj].
    + apply conv_term_zero_below. fold n2. lia.
    + apply conv_term_zero_above. lia.
Qed.

(** Right edge: output [n1 + i] for [i < n2 - 1]. *)
Lemma correlate_right (i : nat) :
  (i < n2 - 1)%nat ->
  np.dot (skipn (n1 - n2 + 1 + i) a) (firstn (n2 - 1 - i) (rev v))
  = conv_sum a v (n1 + i).
Proof.
  intros Hi. rewrite dot_as_sum, length_skipn. fold n1.
  replace (n1 - (n1 - n2 + 1 + i))%nat with (n2 - 1 - i)%nat by lia.
  unfold conv_sum. fold n1.
  rewrite (sum_upto_window n1 (n1 - n2 + 1 + i) (n2 - 1 - i)); [|lia|].
  - apply sum_upto_ext. intros t Ht.
    rewrite conv_term_inside by lia.
    rewrite nth_firstn. destruct (Nat.ltb_spec t (n2 - 1 - i)); [|lia].
    rewrite nth_skipn, rev_nth by (fold n2; lia). fold n2.
    do 2 f_equal. lia.
  - intros j Hn [Hj|Hj]; [|lia].
    apply conv_term_zero_below. fold n2. lia.
Qed.

Lemma correlate_full_length :
  length (np.correlate_full a (rev v)) = (n1 + n2 - 1)%nat.
Proof.
  unfold np.correlate_full.
  rewrite !length_app, !length_map, !length_seq, length_rev.
  fold n1 n2. lia.
Qed.

Lemma correlate_full_nth (k : nat) :
  (k < n1 + n2 - 1)%nat ->
  nth k (np.correlate_full a (rev v)) 0 = conv_sum a v k.
Proof.
  intros Hk. unfold np.correlate_full. rewrite length_rev. fold n1 n2.
  destruct (Nat.lt_ge_cases k (n2 - 1)) as [Hl|Hl].
  - rewrite app_nth1 by (rewrite length_map, length_seq; exact Hl).
    rewrite nth_map_seq by exact Hl. apply correlate_left. exact Hl.
  - rewrite app_nth2 by (rewrite length_map, length_seq; exact Hl).
    rewrite length_map, length_seq.
    destruct (Nat.lt_ge_cases (k - (n2 - 1)) (n1 - n2 + 1)) as [Hm|Hm].
    + rewrite app_nth1 by (rewrite length_map, length_seq; exact Hm).
      rewrite nth_map_seq by exact Hm.
      rewrite correlate_middle by exact Hm. f_equal. lia.
    + rewrite app_nth2 by (rewrite length_map, length_seq; exact Hm).
      rewrite length_map, length_seq.
      rewrite nth_map_seq by lia.
      rewrite correlate_right by lia. f_equal. lia.
Qed.

End CorrelateFacts.

Lemma conv_term_zero_outside (a v : list R) (k j : nat) :
  (length a <= j)%nat -> conv_term a v k j = 0.
Proof.
  intros H. unfold conv_term. rewrite (nth_overflow a) by exact H. lra.
Qed.

(** The specified sum only has the terms [j = 0 .. k]. *)
Lemma conv_sum_canonical (a v : list R) (k : nat) :
  conv_sum a v k = sum_upto (S k) (fun j => nth j a 0 * nth (k - j) v 0).
Proof.
  unfold conv_sum.
  transitivity (sum_upto (Nat.max (length a) (S k)) (conv_term a v k)).
  - symmetry. rewrite (sum_upto_window _ 0 (length a)); [reflexivity|lia|].
    intros j _ [Hj|Hj]; [lia|]. apply conv_term_zero_outside. lia.
  - rewrite (sum_upto_window _ 0 (S k)); [|lia|].
    + apply sum_upto_ext. intros j Hj. apply conv_term_inside. simpl. lia.
    + intros j _ [Hj|Hj]; [lia|]. apply conv_term_zero_above. lia.
Qed.

Lemma conv_sum_comm (a v : list R) (k : nat) :
  conv_sum a v k = conv_sum v a k.
Proof.
  rewrite !conv_sum_canonical, sum_upto_rev.
  apply sum_upto_ext. intros j Hj.
  replace (S k - 1 - j)%nat with (k - j)%nat by lia.
  replace (k - (k - j))%nat with j by lia. lra.
Qed.

(** [np.convolve] on non-empty arrays: length and entries. *)
Lemma convolve_spec (a v : list R) :
  a <> [] -> v <> [] ->
  exists c, np.convolve a v = Ok c /\
    length c = (length a + length v - 1)%nat /\
    forall k, (k < length c)%nat -> nth k c 0 = conv_sum a v k.
Proof.
  intros Ha Hv.
  assert (La : (1 <= length a)%nat) by (destruct a; [congruence | simpl; lia]).
  assert (Lv : (1 <= length v)%nat) by (destruct v; [congruence | simpl; lia]).
  unfold np.convolve.
  destruct (Nat.ltb_spec (length a) (length v)) as [Hlt|Hge].
  - exists (np.correlate_full v (rev a)). split.
    + destruct v; [congruence|]. destruct a; [congruence | reflexivity].
    + rewrite correlate_full_length by lia. split; [lia|].
      intros k Hk. rewrite correlate_full_nth by lia. apply conv_sum_comm.
  - exists (np.correlate_full a (rev v)). split.
    + destruct a; [congruence|]. destruct v; [congruence | reflexivity].
    + rewrite correlate_full_length by lia. split; [reflexivity|].
      intros k Hk. apply correlate_full_nth; lia.
Qed.

Lemma convolve_empty (a v : list R) :
  a = [] \/ v = [] -> np.convolve a v = Raise ValueError.
Proof.
  intros [-> | ->]; unfold np.convolve.
  - destruct v; reflexivity.
  - destruct a; reflexivity.
Qed.

Lemma nth_map_default0 (f : R -> R) (l : list R) (k : nat) :
  (k < length l)%nat -> nth k (map f l) 0 = f (nth k l 0).
Proof.
  intros Hk. rewrite (nth_indep _ 0 (f 0)) by (rewrite length_map; exact Hk).
  apply map_nth.
Qed.

Lemma R_omega_0_spec (Phi_om sigma_om0 : list R) (d : R) :
  Phi_om <> [] -> sigma_om0 <> [] ->
  exists Rs, R_omega_0 Phi_om sigma_om0 d = Ok Rs /\
    length Rs = (length Phi_om + length sigma_om0 - 1)%nat /\
    forall k, (k < length Rs)%nat ->
      nth k Rs 0 = d * conv_sum Phi_om sigma_om0 k.
Proof.
  intros HP Hs.
  destruct (convolve_spec Phi_om sigma_om0 HP Hs) as (c & E & L & N).
  exists (map (fun y => y * d) c). unfold R_omega_0. rewrite E. simpl.
  split; [reflexivity|]. rewrite length_map. split; [exact L|].
  intros k Hk. rewrite nth_map_default0 by exact Hk.
  rewrite N by exact Hk. lra.
Qed.

(** C2, as stated for every pair of arrays, fails on an empty array:
    [np.convolve] refuses it and no rate array exists. *)
Lemma empty_profile_has_no_convolution :
  R_omega_0 [] [1] 1 = Raise ValueError /\
  ~ convolution_as_specified [] [1] 1.
Proof.
  split; [reflexivity|].
  intros (Rs & E & _). discriminate E.
Qed.

(** C2, amended.  For every pair of non-empty arrays and every step the
    rate array has length [len(Phi) + len(sigma) - 1] and its entry [k] is
    [d_omega] times the sum over [j] of [Phi[j] * sigma[k - j]], indices
    outside an array contributing zero. *)
Theorem convolution_engine_correct (Phi_om sigma_om0 : list R) (d : R) :
  Phi_om <> [] -> sigma_om0 <> [] ->
  convolution_as_specified Phi_om sigma_om0 d.
Proof.
  intros HP Hs.
  destruct (R_omega_0_spec Phi_om sigma_om0 d HP Hs) as (Rs & E & L & N).
  exists Rs. split; [exact E|]. split; [|exact N].
  assert (1 <= length Phi_om)%nat
    by (destruct Phi_om; [congruence | simpl; lia]).
  lia.
Qed.

Lemma convolution_engine_correct_witness :
  [1; 2] <> [] /\ [3; 4; 5] <> [] /\
  convolution_as_specified [1; 2] [3; 4; 5] (1 / 2).
Proof.
  split; [discriminate|]. split; [discriminate|].
  apply (convolution_engine_correct [1; 2] [3; 4; 5] (1 / 2)); discriminate.
Defined.

(** ** Signs: rates are non-negative *)

Lemma nonneg_nth (l : list R) (i : nat) : nonneg l -> 0 <= nth i l 0.
Proof.
  intros H. destruct (Nat.lt_ge_cases i (length l)) as [Hi|Hi].
  - unfold nonneg in H. rewrite Forall_forall in H. apply H, nth_In, Hi.
  - rewrite nth_overflow by exact Hi. lra.
Qed.

Lemma nonneg_of_nth (l : list R) :
  (forall i, (i < length l)%nat -> 0 <= nth i l 0) -> nonneg l.
Proof.
  intros H. apply Forall_forall. intros x Hx.
  destruct (In_nth l x 0 Hx) as (i & Hi & <-). apply H, Hi.
Qed.

Lemma conv_term_nonneg (a v : list R) (k j : nat) :
  nonneg a -> nonneg v -> 0 <= conv_term a v k j.
Proof.
  intros Ha Hv. unfold conv_term.
  apply Rmult_le_pos; [apply nonneg_nth, Ha|].
  destruct (j <=? k)%nat; [apply nonneg_nth, Hv | lra].
Qed.

Lemma conv_sum_nonneg (a v : list R) (k : nat) :
  nonneg a -> nonneg v -> 0 <= conv_sum a v k.
Proof.
  intros Ha Hv. apply sum_upto_nonneg. intros j _.
  apply conv_term_nonneg; assumption.
Qed.

Lemma Lorentz_array_Ok (om : list R) (x0 Gamma : R) :
  0 < Gamma ->
  Lorentz_array om x0 Gamma = Ok (map (fun x => Lorentz x x0 Gamma) om).
Proof.
  intros HG. unfold Lorentz_array. pose proof PI_RGT_0.
  destruct (Req_dec_T (PI * (Gamma / 2)) 0) as [E|_]; [nra | reflexivity].
Qed.

Lemma Phi_omega_Ok (Phi Gamma_L : R) (om : list R) :
  0 < Gamma_L ->
  Phi_omega Phi Gamma_L om
  = Ok (map (fun y => Phi * y) (map (fun x => Lorentz x 0 Gamma_L) om)).
Proof.
  intros HG. unfold Phi_omega. rewrite Lorentz_array_Ok by exact HG.
  reflexivity.
Qed.

Lemma sigma_omega_0_Ok (sigma Gamma_H : R) (om0 : list R) :
  0 < Gamma_H ->
  sigma_omega_0 sigma Gamma_H om0
  = Ok (map (fun y => sigma * (PI * Gamma_H / 2) * y)
            (map (fun x => Lorentz x 0 Gamma_H) om0)).
Proof.
  intros HG. unfold sigma_omega_0. rewrite Lorentz_array_Ok by exact HG.
  reflexivity.
Qed.

Lemma scaled_Lorentz_nonneg (c Gamma : R) (om : list R) :
  0 < Gamma -> 0 <= c ->
  nonneg (map (fun y => c * y) (map (fun x => Lorentz x 0 Gamma) om)).
Proof.
  intros HG Hc. unfold nonneg. rewrite map_map. apply Forall_map.
  apply Forall_forall. intros x _.
  apply Rmult_le_pos; [exact Hc | apply Rlt_le, Lorentz_pos, HG].
Qed.

Lemma R_omega_0_nonneg (Phi_om sigma_om0 Rs : list R) (d : R) :
  0 <= d -> nonneg Phi_om -> nonneg sigma_om0 ->
  R_omega_0 Phi_om sigma_om0 d = Ok Rs -> nonneg Rs.
Proof.
  intros Hd HP Hs E.
  assert (HPne : Phi_om <> []).
  { intros ->. unfold R_omega_0 in E.
    rewrite convolve_empty in E by (left; reflexivity). discriminate E. }
  assert (Hsne : sigma_om0 <> []).
  { intros ->. unfold R_omega_0 in E.
    rewrite convolve_empty in E by (right; reflexivity). discriminate E. }
  destruct (R_omega_0_spec Phi_om sigma_om0 d HPne Hsne) as (Rs' & E' & _ & N).
  rewrite E in E'. injection E' as <-.
  apply nonneg_of_nth. intros k Hk. rewrite N by exact Hk.
  apply Rmult_le_pos; [exact Hd | apply conv_sum_nonneg; assumption].
Qed.

(** The convolution engine either refuses an empty profile or returns an
    array; it never leaves the reals. *)
Lemma R_omega_0_cases (Phi_om sigma_om0 : list R) (d : R) :
  ((Phi_om = [] \/ sigma_om0 = []) /\
   R_omega_0 Phi_om sigma_om0 d = Raise ValueError) \/
  (Phi_om <> [] /\ sigma_om0 <> [] /\
   exists Rs, R_omega_0 Phi_om sigma_om0 d = Ok Rs).
Proof.
  destruct Phi_om as [|x Phi_om'].
  { left. split; [left; reflexivity|]. unfold R_omega_0.
    rewrite convolve_empty by (left; reflexivity). reflexivity. }
  destruct sigma_om0 as [|y sigma_om0'].
  { left. split; [right; reflexivity|]. unfold R_omega_0.
    rewrite convolve_empty by (right; reflexivity). reflexivity. }
  right. split; [discriminate|]. split; [discriminate|].
  destruct (R_omega_0_spec (x :: Phi_om') (y :: sigma_om0') d)
    as (Rs & E & _); [discriminate | discriminate |].
  exists Rs. exact E.
Qed.

(** C9.  For a positive decay rate, a positive step and entrywise
    non-negative profiles, every convolved rate is non-negative, every
    divisor [Gamma_Ex + 2 R] of line 220 is strictly positive, and the
    division yields a fraction for every bin; the only way no rate array
    is produced is an empty profile.  The profiles of lines 214 and 215 are
    non-negative whenever the linewidths are positive and the flux and the
    cross-section are non-negative. *)
Theorem saturation_division_is_safe
  (Gamma_Ex d : R) (Phi_om sigma_om0 : list R) :
  0 < Gamma_Ex -> 0 < d -> nonneg Phi_om -> nonneg sigma_om0 ->
  match R_omega_0 Phi_om sigma_om0 d with
  | Ok Rs =>
      nonneg Rs /\
      Forall (fun r => 0 < Gamma_Ex + 2 * r) Rs /\
      Frac_omega_0 Gamma_Ex Rs = Ok (map (Frac Gamma_Ex) Rs)
  | Raise _ => Phi_om = [] \/ sigma_om0 = []
  | NotReal => False
  end /\
  (forall Phi sigma Gamma_L Gamma_H om om0,
     0 <= Phi -> 0 <= sigma -> 0 < Gamma_L -> 0 < Gamma_H ->
     exists l l0,
       Phi_omega Phi Gamma_L om = Ok l /\
       sigma_omega_0 sigma Gamma_H om0 = Ok l0 /\
       nonneg l /\ nonneg l0).
Proof.
  intros HG Hd HP Hs. split.
  - destruct (R_omega_0 Phi_om sigma_om0 d) as [Rs|e|] eqn:E.
    + pose proof (R_omega_0_nonneg _ _ _ _ (Rlt_le _ _ Hd) HP Hs E) as HRs.
      split; [exact HRs|]. split.
      * unfold nonneg in HRs. rewrite Forall_forall in *.
        intros r Hr. specialize (HRs r Hr). lra.
      * apply Frac_omega_0_nonneg; assumption.
    + destruct (R_omega_0_cases Phi_om sigma_om0 d)
        as [(Hempty & _) | (_ & _ & Rs & E')]; [exact Hempty|].
      rewrite E in E'. discriminate E'.
    + destruct (R_omega_0_cases Phi_om sigma_om0 d)
        as [(_ & E') | (_ & _ & Rs & E')]; rewrite E in E'; discriminate E'.
  - intros Phi sigma Gamma_L Gamma_H om om0 HPhi Hsig HL HH.
    eexists. eexists.
    split; [apply Phi_omega_Ok; exact HL|].
    split; [apply sigma_omega_0_Ok; exact HH|].
    pose proof PI_RGT_0.
    split; apply scaled_Lorentz_nonneg; try assumption.
    apply Rmult_le_pos; [exact Hsig | nra].
Qed.

Lemma saturation_division_is_safe_witness :
  0 < 2 /\ 0 < 1 /\ nonneg [1; 0] /\ nonneg [3] /\
  match R_omega_0 [1; 0] [3] 1 with
  | Ok Rs =>
      nonneg Rs /\
      Forall (fun r => 0 < 2 + 2 * r) Rs /\
      Frac_omega_0 2 Rs = Ok (map (Frac 2) Rs)
  | Raise _ => [1; 0] = [] \/ [3] = []
  | NotReal => False
  end.
Proof.
  assert (H2 : 0 < 2) by lra. assert (H1 : 0 < 1) by lra.
  assert (Ha : nonneg [1; 0]) by (repeat constructor; lra).
  assert (Hb : nonneg [3]) by (repeat constructor; lra).
  split; [exact H2|]. split; [exact H1|]. split; [exact Ha|].
  split; [exact Hb|].
  exact (proj1 (saturation_division_is_safe 2 1 [1; 0] [3] H2 H1 Ha Hb)).
Defined.

(** ** The cross-section profile and its peak *)

Lemma fold_left_Rmax_ge_acc (l : list R) (x : R) : x <= fold_left Rmax l x.
Proof.
  revert x. induction l as [|y l IH]; intros x; simpl; [lra|].
  apply Rle_trans with (Rmax x y); [apply Rmax_l | apply IH].
Qed.

Lemma fold_left_Rmax_ge (l : list R) (x y : R) :
  In y l -> y <= fold_left Rmax l x.
Proof.
  revert x. induction l as [|z l IH]; intros x Hin; [contradiction|].
  simpl. destruct Hin as [-> | Hin].
  - apply Rle_trans with (Rmax x y); [apply Rmax_r | apply fold_left_Rmax_ge_acc].
  - apply IH, Hin.
Qed.

Lemma fold_left_Rmax_In (l : list R) (x : R) :
  fold_left Rmax l x = x \/ In (fold_left Rmax l x) l.
Proof.
  revert x. induction l as [|y l IH]; intros x; simpl; [left; reflexivity|].
  destruct (IH (Rmax x y)) as [E|Hin].
  - rewrite E. unfold Rmax. destruct (Rle_dec x y); [right; left | left]; reflexivity.
  - right. right. exact Hin.
Qed.

Lemma np_max_spec (l : list R) (m : R) :
  np.max l = Ok m -> In m l /\ forall y, In y l -> y <= m.
Proof.
  destruct l as [|x tl]; simpl; [discriminate|].
  intros E. injection E as <-. split.
  - destruct (fold_left_Rmax_In tl x) as [-> | H]; [left; reflexivity | right; exact H].
  - intros y [<- | Hy]; [apply fold_left_Rmax_ge_acc | apply fold_left_Rmax_ge, Hy].
Qed.

Lemma np_max_Ok (l : list R) : l <> [] -> exists m, np.max l = Ok m.
Proof.
  destruct l as [|x tl]; [congruence|]. intros _. eexists. reflexivity.
Qed.

(** One entry of the cross-section profile (line 215). *)
Lemma cross_section_peak (sigma Gamma_H : R) :
  0 < Gamma_H -> sigma * (PI * Gamma_H / 2) * Lorentz 0 0 Gamma_H = sigma.
Proof.
  intros HG. rewrite Lorentz_peak_value by exact HG.
  pose proof PI_RGT_0. field. split; lra.
Qed.

Lemma cross_section_le_peak (sigma Gamma_H x : R) :
  0 < Gamma_H -> 0 <= sigma ->
  sigma * (PI * Gamma_H / 2) * Lorentz x 0 Gamma_H <= sigma.
Proof.
  intros HG Hs. rewrite <- (cross_section_peak sigma Gamma_H HG) at 2.
  pose proof PI_RGT_0.
  apply Rmult_le_compat_l; [apply Rmult_le_pos; nra|].
  apply Lorentz_le_peak, HG.
Qed.

Lemma cross_section_lt_peak (sigma Gamma_H x : R) :
  0 < Gamma_H -> 0 < sigma -> x <> 0 ->
  sigma * (PI * Gamma_H / 2) * Lorentz x 0 Gamma_H < sigma.
Proof.
  intros HG Hs Hx. rewrite <- (cross_section_peak sigma Gamma_H HG) at 2.
  pose proof PI_RGT_0.
  apply Rmult_lt_compat_l; [apply Rmult_lt_0_compat; nra|].
  apply Lorentz_lt_peak; assumption.
Qed.

(** When the homogeneous linewidth is the larger one, zero offset would be
    sample number 150001.5 of the atomic axis: it is not sampled. *)
Lemma atomic_axis_misses_zero (Gamma_L Gamma_H : R) (i : nat) :
  0 < Gamma_L -> Gamma_L <= Gamma_H ->
  - 3 * Gamma_H / 2 + INR i * d_omega Gamma_L Gamma_H <> 0.
Proof.
  intros HL HLH E.
  unfold d_omega, larger_line, np.max2 in E. rewrite Rmax_right in E by exact HLH.
  assert (E2 : 2 * INR i = 300003).
  { apply Rmult_eq_reg_r with Gamma_H; [|lra].
    apply Rmult_eq_reg_r with (/ 200002); [|lra]. lra. }
  rewrite INR_IZR_INZ, <- mult_IZR in E2. apply eq_IZR in E2. lia.
Qed.

Lemma cross_section_max (sigma Gamma_L Gamma_H : R) :
  0 < Gamma_L -> 0 < Gamma_H -> 0 <= sigma ->
  exists om0 l m,
    omega_0 Gamma_L Gamma_H = Ok om0 /\
    sigma_omega_0 sigma Gamma_H om0 = Ok l /\
    np.max l = Ok m /\
    Forall (fun y => y <= sigma) l /\
    m <= sigma /\
    (0 < sigma -> Gamma_L <= Gamma_H -> m < sigma).
Proof.
  intros HL HH Hs.
  destruct (grid_facts Gamma_L Gamma_H HL HH)
    as (om & om0 & tot & _ & _ & E0 & _ & L0 & _ & _ & U0 & _).
  destruct (axis_lengths Gamma_L Gamma_H HL HH) as (_ & H2 & _).
  set (l := map (fun y => sigma * (PI * Gamma_H / 2) * y)
                (map (fun x => Lorentz x 0 Gamma_H) om0)).
  assert (Hne : l <> []).
  { intros E. apply (f_equal (@length R)) in E. unfold l in E.
    rewrite !length_map, L0 in E. simpl in E. lia. }
  destruct (np_max_Ok l Hne) as (m & Em).
  destruct (np_max_spec l m Em) as [Hin _].
  assert (Hentry : forall y, In y l -> exists i, (i < length om0)%nat /\
            y = sigma * (PI * Gamma_H / 2) * Lorentz (nth i om0 0) 0 Gamma_H).
  { intros y Hy. unfold l in Hy. rewrite map_map in Hy.
    apply in_map_iff in Hy. destruct Hy as (x & <- & Hx).
    destruct (In_nth om0 x 0 Hx) as (i & Hi & <-). exists i. split; [exact Hi | reflexivity]. }
  exists om0, l, m.
  split; [exact E0|]. split; [apply sigma_omega_0_Ok; exact HH|].
  split; [exact Em|].
  assert (Hall : Forall (fun y => y <= sigma) l).
  { apply Forall_forall. intros y Hy.
    destruct (Hentry y Hy) as (i & _ & ->).
    apply cross_section_le_peak; assumption. }
  split; [exact Hall|]. split.
  - rewrite Forall_forall in Hall. apply Hall, Hin.
  - intros Hpos HLH. destruct (Hentry m Hin) as (i & Hi & ->).
    apply cross_section_lt_peak; [assumption | assumption |].
    rewrite U0 by exact Hi.
    apply atomic_axis_misses_zero; assumption.
Qed.

(** C10, as stated, fails on the notebook's own values: the peak identity
    holds, but no sample of the atomic axis sits at zero offset, so the
    largest entry of the cross-section array is strictly below
    [sigma]. *)
Lemma notebook_peak_is_not_an_entry :
  ~ peak_is_maximum_entry nb_sigma nb_Gamma_L nb_Gamma_H.
Proof.
  intros (_ & om0 & l & E0 & El & Em).
  assert (Hs : 0 < nb_sigma) by (unfold nb_sigma; lra).
  assert (HLH : nb_Gamma_L <= nb_Gamma_H).
  { unfold nb_Gamma_L, nb_Gamma_H, nb_Gamma_Ex. pose proof PI_RGT_0. lra. }
  destruct (cross_section_max nb_sigma nb_Gamma_L nb_Gamma_H
              nb_Gamma_L_pos nb_Gamma_H_pos (Rlt_le _ _ Hs))
    as (om0' & l' & m & E0' & El' & Em' & _ & _ & Hlt).
  rewrite E0 in E0'. injection E0' as <-.
  rewrite El in El'. injection El' as <-.
  rewrite Em in Em'. injection Em' as <-.
  specialize (Hlt Hs HLH). lra.
Qed.

(** C10, amended.  For positive linewidths the prefactor [pi Gamma_H / 2]
    cancels the Lorentzian peak height, so the profile at zero offset is
    exactly [sigma]; for [sigma >= 0] every entry of the cross-section array,
    and hence its maximum, is at most [sigma]; and when
    [Gamma_L <= Gamma_H] and [sigma > 0] the maximum is strictly smaller,
    zero offset not being a sample. *)
Theorem cross_section_peak_bounds_profile (sigma Gamma_L Gamma_H : R) :
  0 < Gamma_L -> 0 < Gamma_H -> 0 <= sigma ->
  sigma * (PI * Gamma_H / 2) * Lorentz 0 0 Gamma_H = sigma /\
  exists om0 l m,
    omega_0 Gamma_L Gamma_H = Ok om0 /\
    sigma_omega_0 sigma Gamma_H om0 = Ok l /\
    np.max l = Ok m /\
    Forall (fun y => y <= sigma) l /\
    m <= sigma /\
    (0 < sigma -> Gamma_L <= Gamma_H -> m < sigma).
Proof.
  intros HL HH Hs. split.
  - apply cross_section_peak, HH.
  - apply cross_section_max; assumption.
Qed.

Lemma cross_section_peak_bounds_profile_witness :
  0 < 1 /\ 0 < 2 /\ 0 <= 5 /\
  5 * (PI * 2 / 2) * Lorentz 0 0 2 = 5 /\
  exists om0 l m,
    omega_0 1 2 = Ok om0 /\
    sigma_omega_0 5 2 om0 = Ok l /\
    np.max l = Ok m /\
    Forall (fun y => y <= 5) l /\
    m <= 5 /\
    (0 < 5 -> 1 <= 2 -> m < 5).
Proof.
  split; [lra|]. split; [lra|]. split; [lra|].
  apply (cross_section_peak_bounds_profile 5 1 2); lra.
Defined.

(** ** The inhomogeneous integrator *)

Lemma multiply_same_length (xs ys : list R) :
  length xs = length ys ->
  np.multiply xs ys = Ok (map (fun p => fst p * snd p) (combine xs ys)).
Proof.
  intros H. unfold np.multiply, np.broadcast.
  rewrite H, Nat.eqb_refl. reflexivity.
Qed.

(** Line 223 on arrays of equal length, as a finite sum over the bins. *)
Lemma Gamma_Sc_formula (Gamma_Ex d : R) (N_om Fr : list R) :
  length N_om = length Fr ->
  Gamma_Sc Gamma_Ex d N_om Fr
  = Ok (Gamma_Ex * sum_upto (length N_om)
                     (fun i => nth i N_om 0 * d * nth i Fr 0)).
Proof.
  intros Hlen. unfold Gamma_Sc.
  rewrite multiply_same_length by (rewrite length_map; exact Hlen).
  simpl. do 2 f_equal.
  change (np.sum (map (fun p => fst p * snd p)
                      (combine (map (fun y => y * d) N_om) Fr)))
    with (np.dot (map (fun y => y * d) N_om) Fr).
  rewrite dot_as_sum, length_map.
  apply sum_upto_ext. intros i Hi.
  rewrite nth_map_default0 by exact Hi. reflexivity.
Qed.

Lemma N_Inhom_omega_0_Ok (N_Inhom Gamma_In : R) (tot : list R) :
  0 < Gamma_In ->
  N_Inhom_omega_0 N_Inhom Gamma_In tot
  = Ok (map (fun y => N_Inhom * y) (map (fun x => Lorentz x 0 Gamma_In) tot)).
Proof.
  intros HG. unfold N_Inhom_omega_0. rewrite Lorentz_array_Ok by exact HG.
  reflexivity.
Qed.

Lemma scaled_Lorentz_nth (c Gamma : R) (l : list R) (i : nat) :
  (i < length l)%nat ->
  nth i (map (fun y => c * y) (map (fun x => Lorentz x 0 Gamma) l)) 0
  = c * Lorentz (nth i l 0) 0 Gamma.
Proof.
  intros Hi. rewrite map_map.
  rewrite (nth_map_default0 (fun x => c * Lorentz x 0 Gamma)) by exact Hi.
  reflexivity.
Qed.

(** C7.  For positive [Gamma_Ex], [Gamma_In] and step and a non-negative
    atom number: the atom density on the combined axis is
    [N_total * L(omega_tot[i]; 0, Gamma_In)] with [L] the normalized
    Lorentzian centred on the inhomogeneous peak (offset zero of the
    re-centred axis), and the scattering rate computed from it and an
    excitation-fraction array over the same bins is [Gamma_Ex] times the sum
    over all bins of [n[i] * P_Ex[i] * d_omega]. *)
Theorem inhomogeneous_integrator_correct
  (Gamma_Ex Gamma_In d N_total : R) (tot P_ex : list R) :
  0 < Gamma_Ex -> 0 < Gamma_In -> 0 < d -> 0 <= N_total ->
  length P_ex = length tot ->
  exists n,
    N_Inhom_omega_0 N_total Gamma_In tot = Ok n /\
    length n = length tot /\
    (forall i, (i < length tot)%nat ->
       nth i n 0
       = N_total * ((1 / PI) * (Gamma_In / 2)
                    / ((nth i tot 0 - 0) ^ 2 + (Gamma_In / 2) ^ 2))) /\
    Gamma_Sc Gamma_Ex d n P_ex
    = Ok (Gamma_Ex * sum_upto (length tot)
                       (fun i => nth i n 0 * nth i P_ex 0 * d)).
Proof.
  intros HEx HIn Hd HN Hlen.
  eexists. split; [apply N_Inhom_omega_0_Ok; exact HIn|].
  assert (L : length (map (fun y => N_total * y)
                (map (fun x => Lorentz x 0 Gamma_In) tot)) = length tot)
    by (rewrite !length_map; reflexivity).
  split; [exact L|]. split.
  - intros i Hi. rewrite scaled_Lorentz_nth by exact Hi.
    rewrite Lorentz_closed_form by exact HIn. reflexivity.
  - rewrite Gamma_Sc_formula by (rewrite L; symmetry; exact Hlen).
    rewrite L. do 2 f_equal. apply sum_upto_ext. intros i _. lra.
Qed.

Lemma inhomogeneous_integrator_correct_witness :
  0 < 2 /\ 0 < 4 /\ 0 < 1 /\ 0 <= 3 /\
  length [1 / 4; 1 / 8] = length [0; 1] /\
  exists n,
    N_Inhom_omega_0 3 4 [0; 1] = Ok n /\
    length n = length [0; 1] /\
    (forall i, (i < length [0; 1])%nat ->
       nth i n 0
       = 3 * ((1 / PI) * (4 / 2) / ((nth i [0; 1] 0 - 0) ^ 2 + (4 / 2) ^ 2))) /\
    Gamma_Sc 2 1 n [1 / 4; 1 / 8]
    = Ok (2 * sum_upto (length [0; 1])
                (fun i => nth i n 0 * nth i [1 / 4; 1 / 8] 0 * 1)).
Proof.
  split; [lra|]. split; [lra|]. split; [lra|]. split; [lra|].
  split; [reflexivity|].
  apply (inhomogeneous_integrator_correct 2 4 1 3 [0; 1] [1 / 4; 1 / 8]);
    try lra; reflexivity.
Defined.

(** ** The whole model *)

Lemma nonempty_length (l : list R) : l <> [] <-> (1 <= length l)%nat.
Proof.
  destruct l; simpl; split; intros H; try congruence; try lia.
Qed.

Lemma np_sqrt_Ok (x : R) : 0 <= x -> np.sqrt x = Ok (sqrt x).
Proof.
  intros H. unfold np.sqrt. destruct (Rlt_dec x 0); [lra | reflexivity].
Qed.

(** With positive linewidths, a non-negative flux and cross-section, and
    non-empty axes, lines 214 to 223 run through and yield the scattering
    rate as a sum over the bins of the combined axis. *)
Lemma model_Ok (p : params) (Phi : R) (om om0 tot : list R) :
  0 < Gamma_L p -> 0 < Gamma_H p -> 0 < Gamma_Ex p -> 0 < Gamma_In p ->
  0 <= sigma p -> 0 <= Phi ->
  om <> [] -> om0 <> [] ->
  length tot = (length om + length om0 - 1)%nat ->
  exists Rs out,
    R_omega_0 (flux_profile p Phi om) (cross_section_profile p om0)
              (d_omega (Gamma_L p) (Gamma_H p)) = Ok Rs /\
    nonneg Rs /\ length Rs = length tot /\
    (forall k, (k < length Rs)%nat ->
       nth k Rs 0
       = d_omega (Gamma_L p) (Gamma_H p)
         * conv_sum (flux_profile p Phi om) (cross_section_profile p om0) k) /\
    model p Phi (mkGrid om om0 tot) = Ok out /\
    out_Gamma_Sc out
    = scattering p (d_omega (Gamma_L p) (Gamma_H p)) tot Rs /\
    exists m, np.max Rs = Ok m /\
              out_Omega_0 out = Ok (sqrt (m * Gamma_H p)).
Proof.
  intros HL HH HEx HIn Hsig HPhi Hom Hom0 Htot.
  set (d := d_omega (Gamma_L p) (Gamma_H p)).
  assert (Hd : 0 < d) by (apply d_omega_pos; assumption).
  pose proof PI_RGT_0 as Hpi.
  assert (NP : nonneg (flux_profile p Phi om))
    by (apply scaled_Lorentz_nonneg; assumption).
  assert (NS : nonneg (cross_section_profile p om0)).
  { apply scaled_Lorentz_nonneg; [assumption|].
    apply Rmult_le_pos; [assumption | nra]. }
  assert (LP : length (flux_profile p Phi om) = length om)
    by (unfold flux_profile; rewrite !length_map; reflexivity).
  assert (LS : length (cross_section_profile p om0) = length om0)
    by (unfold cross_section_profile; rewrite !length_map; reflexivity).
  apply nonempty_length in Hom. apply nonempty_length in Hom0.
  destruct (R_omega_0_spec (flux_profile p Phi om)
              (cross_section_profile p om0) d) as (Rs & ERs & LRs & FRs).
  { apply nonempty_length. lia. }
  { apply nonempty_length. lia. }
  rewrite LP, LS in LRs.
  assert (NRs : nonneg Rs).
  { apply (R_omega_0_nonneg _ _ _ d (Rlt_le _ _ Hd) NP NS ERs). }
  destruct (np_max_Ok Rs) as (m & Em).
  { apply nonempty_length. lia. }
  assert (Hm : 0 <= m).
  { destruct (np_max_spec Rs m Em) as [Hin _].
    unfold nonneg in NRs. rewrite Forall_forall in NRs. apply NRs, Hin. }
  exists Rs. eexists.
  split; [exact ERs|]. split; [exact NRs|]. split; [lia|].
  split; [exact FRs|].
  split.
  - unfold model. cbn [g_omega g_omega_0 g_omega_tot].
    rewrite Phi_omega_Ok by exact HL. cbn [bind].
    rewrite sigma_omega_0_Ok by exact HH. cbn [bind].
    fold (flux_profile p Phi om). fold (cross_section_profile p om0).
    fold d. rewrite ERs. cbn [bind].
    rewrite N_Inhom_omega_0_Ok by exact HIn. cbn [bind].
    rewrite Frac_omega_0_nonneg by assumption. cbn [bind].
    rewrite Gamma_Sc_formula by (rewrite !length_map; lia). cbn [bind].
    reflexivity.
  - split.
    + cbn [out_Gamma_Sc]. unfold scattering. rewrite !length_map. f_equal.
      apply sum_upto_ext. intros i Hi.
      rewrite scaled_Lorentz_nth by exact Hi.
      rewrite nth_map_default0 by lia. reflexivity.
    + exists m. split; [exact Em|].
      cbn [out_Omega_0]. unfold Omega_0. rewrite Em. cbn [bind].
      apply np_sqrt_Ok. apply Rmult_le_pos; lra.
Qed.

(** ** Monotonicity of the scattering rate *)

Lemma conv_sum_mono (a a' v : list R) (k : nat) :
  length a = length a' ->
  (forall j, nth j a 0 <= nth j a' 0) -> nonneg v ->
  conv_sum a v k <= conv_sum a' v k.
Proof.
  intros Hlen Hle Hv. unfold conv_sum. rewrite Hlen.
  apply sum_upto_le. intros j _. unfold conv_term.
  apply Rmult_le_compat_r; [|apply Hle].
  destruct (j <=? k)%nat; [apply nonneg_nth, Hv | lra].
Qed.

Lemma flux_profile_mono (p : params) (Phi1 Phi2 : R) (om : list R) (j : nat) :
  0 < Gamma_L p -> Phi1 <= Phi2 ->
  nth j (flux_profile p Phi1 om) 0 <= nth j (flux_profile p Phi2 om) 0.
Proof.
  intros HL H12. unfold flux_profile.
  destruct (Nat.lt_ge_cases j (length om)) as [Hj|Hj].
  - rewrite !scaled_Lorentz_nth by exact Hj.
    apply Rmult_le_compat_r; [apply Rlt_le, Lorentz_pos, HL | exact H12].
  - rewrite !nth_overflow by (rewrite !length_map; exact Hj). lra.
Qed.

Lemma scattering_mono_rates (p : params) (d : R) (tot Rs1 Rs2 : list R) :
  0 < Gamma_Ex p -> 0 < Gamma_In p -> 0 <= N_Inhom p -> 0 <= d ->
  (forall i, (i < length tot)%nat -> 0 <= nth i Rs1 0 <= nth i Rs2 0) ->
  scattering p d tot Rs1 <= scattering p d tot Rs2.
Proof.
  intros HEx HIn HN Hd HR. unfold scattering.
  apply Rmult_le_compat_l; [lra|].
  apply sum_upto_le. intros i Hi.
  apply Rmult_le_compat_l.
  - apply Rmult_le_pos; [|exact Hd].
    apply Rmult_le_pos; [exact HN | apply Rlt_le, Lorentz_pos, HIn].
  - destruct (HR i Hi). apply Frac_monotone; assumption.
Qed.

Lemma scattering_mono_atoms (p : params) (N1 N2 d : R) (tot Rs : list R) :
  0 < Gamma_Ex p -> 0 < Gamma_In p -> N1 <= N2 -> 0 <= d -> nonneg Rs ->
  scattering (with_N_Inhom p N1) d tot Rs
  <= scattering (with_N_Inhom p N2) d tot Rs.
Proof.
  intros HEx HIn H12 Hd HR. unfold scattering. cbn [with_N_Inhom Gamma_Ex N_Inhom Gamma_In].
  apply Rmult_le_compat_l; [lra|].
  apply sum_upto_le. intros i Hi.
  apply Rmult_le_compat_r.
  - apply Frac_bounds; [exact HEx | apply nonneg_nth, HR].
  - apply Rmult_le_compat_r; [exact Hd|].
    apply Rmult_le_compat_r; [apply Rlt_le, Lorentz_pos, HIn | exact H12].
Qed.

(** The grids exist, with non-empty axes and a combined axis of the length
    of the full convolution. *)
Lemma grid_Ok (Gamma_L Gamma_H : R) :
  0 < Gamma_L -> 0 < Gamma_H ->
  exists om om0 tot,
    grid Gamma_L Gamma_H = Ok (mkGrid om om0 tot) /\
    om <> [] /\ om0 <> [] /\
    length tot = (length om + length om0 - 1)%nat.
Proof.
  intros HL HH.
  destruct (grid_facts Gamma_L Gamma_H HL HH)
    as (om & om0 & tot & G & _ & _ & L & L0 & Lt & _).
  destruct (axis_lengths Gamma_L Gamma_H HL HH) as (H1 & H2 & _).
  exists om, om0, tot. split; [exact G|].
  split; [apply nonempty_length; rewrite L; exact H1|].
  split; [apply nonempty_length; rewrite L0; exact H2|].
  rewrite L, L0. exact Lt.
Qed.

(** C5.  With positive linewidths and a non-negative cross-section, on the
    grids of these linewidths: the scattering rate does not decrease when
    the photon flux grows from [Phi1 >= 0] to [Phi2 >= Phi1] (atom number
    non-negative), nor when the atom number grows from [N1] to [N2 >= N1]
    (flux non-negative), all other parameters held fixed. *)
Theorem scattering_rate_monotone (p : params) :
  0 < Gamma_L p -> 0 < Gamma_H p -> 0 < Gamma_Ex p -> 0 < Gamma_In p ->
  0 <= sigma p ->
  exists g, grid (Gamma_L p) (Gamma_H p) = Ok g /\
    (forall Phi1 Phi2, 0 <= N_Inhom p -> 0 <= Phi1 -> Phi1 <= Phi2 ->
       exists o1 o2,
         model p Phi1 g = Ok o1 /\ model p Phi2 g = Ok o2 /\
         out_Gamma_Sc o1 <= out_Gamma_Sc o2) /\
    (forall Phi N1 N2, 0 <= Phi -> N1 <= N2 ->
       exists o1 o2,
         model (with_N_Inhom p N1) Phi g = Ok o1 /\
         model (with_N_Inhom p N2) Phi g = Ok o2 /\
         out_Gamma_Sc o1 <= out_Gamma_Sc o2).
Proof.
  intros HL HH HEx HIn Hsig.
  destruct (grid_Ok _ _ HL HH) as (om & om0 & tot & G & Hom & Hom0 & Lt).
  pose proof (d_omega_pos _ _ HL HH) as Hd.
  exists (mkGrid om om0 tot). split; [exact G|]. split.
  - intros Phi1 Phi2 HN H1 H12.
    destruct (model_Ok p Phi1 om om0 tot)
      as (Rs1 & o1 & E1 & N1 & L1 & F1 & M1 & S1 & _); try assumption.
    destruct (model_Ok p Phi2 om om0 tot)
      as (Rs2 & o2 & E2 & N2 & L2 & F2 & M2 & S2 & _); try assumption; [lra|].
    exists o1, o2. split; [exact M1|]. split; [exact M2|].
    rewrite S1, S2.
    apply scattering_mono_rates; try assumption; [lra|].
    intros i Hi. split; [apply nonneg_nth, N1|].
    rewrite F1, F2 by lia.
    apply Rmult_le_compat_l; [lra|].
    apply conv_sum_mono.
    + unfold flux_profile. rewrite !length_map. reflexivity.
    + intros j. apply flux_profile_mono; assumption.
    + pose proof PI_RGT_0. apply scaled_Lorentz_nonneg; [assumption|].
      apply Rmult_le_pos; [assumption | nra].
  - intros Phi N1 N2 HPhi H12.
    destruct (model_Ok (with_N_Inhom p N1) Phi om om0 tot)
      as (Rs1 & o1 & E1 & NR1 & L1 & _ & M1 & S1 & _); try assumption.
    destruct (model_Ok (with_N_Inhom p N2) Phi om om0 tot)
      as (Rs2 & o2 & E2 & NR2 & L2 & _ & M2 & S2 & _); try assumption.
    exists o1, o2. split; [exact M1|]. split; [exact M2|].
    rewrite S1, S2.
    change (R_omega_0 (flux_profile p Phi om) (cross_section_profile p om0)
              (d_omega (Gamma_L p) (Gamma_H p)) = Ok Rs1) in E1.
    change (R_omega_0 (flux_profile p Phi om) (cross_section_profile p om0)
              (d_omega (Gamma_L p) (Gamma_H p)) = Ok Rs2) in E2.
    rewrite E1 in E2. injection E2 as <-.
    apply (scattering_mono_atoms p N1 N2); try assumption.
    apply Rlt_le. exact Hd.
Qed.

Lemma scattering_rate_monotone_witness :
  0 < Gamma_L example_params /\ 0 < Gamma_H example_params /\
  0 < Gamma_Ex example_params /\ 0 < Gamma_In example_params /\
  0 <= sigma example_params /\
  exists g, grid (Gamma_L example_params) (Gamma_H example_params) = Ok g /\
    (forall Phi1 Phi2, 0 <= N_Inhom example_params -> 0 <= Phi1 ->
       Phi1 <= Phi2 ->
       exists o1 o2,
         model example_params Phi1 g = Ok o1 /\
         model example_params Phi2 g = Ok o2 /\
         out_Gamma_Sc o1 <= out_Gamma_Sc o2) /\
    (forall Phi N1 N2, 0 <= Phi -> N1 <= N2 ->
       exists o1 o2,
         model (with_N_Inhom example_params N1) Phi g = Ok o1 /\
         model (with_N_Inhom example_params N2) Phi g = Ok o2 /\
         out_Gamma_Sc o1 <= out_Gamma_Sc o2).
Proof.
  assert (H1 : 0 < Gamma_L example_params) by (simpl; lra).
  assert (H2 : 0 < Gamma_H example_params) by (simpl; lra).
  assert (H3 : 0 < Gamma_Ex example_params) by (simpl; lra).
  assert (H4 : 0 < Gamma_In example_params) by (simpl; lra).
  assert (H5 : 0 <= sigma example_params) by (simpl; lra).
  repeat (split; [assumption|]).
  exact (scattering_rate_monotone example_params H1 H2 H3 H4 H5).
Defined.

(** ** The grids, for linewidths of any sign *)






(** ** Parameter validation *)

Lemma h_pos : 0 < h.
Proof. unfold h. apply Rdiv_lt_0_compat; [lra | apply pow_lt; lra]. Qed.





















(** ** Small runs of the primitives *)

Example arange_example : np.arange 0 1 (1 / 4) = Ok [0; 1 / 4; 1 / 2; 3 / 4].
Proof.
  rewrite arange_Ok by lra.
  rewrite (arange_len_eq 0 1 (1 / 4) 4) by (try lra; lia).
  simpl. same_entries.
Qed.

Example linspace_example : np.linspace 0 1 3 = Ok [0; 1 / 2; 1].
Proof.
  unfold np.linspace, np.linspace_step. simpl. same_entries.
Qed.

(** The end point of a half-open range is not a sample, so a [linspace]
    over the summed end points of two ranges has a larger step than they. *)
Example linspace_over_two_aranges :
  np.arange 0 1 (2 / 5) = Ok [0; 2 / 5; 4 / 5] /\
  np.linspace (0 + 0) (1 + 1) (3 + 3 - 1) = Ok [0; 1 / 2; 1; 3 / 2; 2].
Proof.
  split.
  - rewrite arange_Ok by lra.
    rewrite (arange_len_eq 0 1 (2 / 5) 3) by (try lra; lia).
    simpl. same_entries.
  - unfold np.linspace, np.linspace_step. simpl. same_entries.
Qed.

Example Lorentz_example : Lorentz 1 0 2 = 1 / (2 * PI).
Proof.
  unfold Lorentz. pose proof PI_RGT_0. field. lra.
Qed.

Example convolve_example :
  np.convolve [1; 2] [3; 4; 5] = Ok [3; 10; 13; 10].
Proof.
  unfold np.convolve. simpl. unfold np.correlate_full. simpl.
  unfold np.dot, np.sum. simpl. same_entries.
Qed.

Example R_omega_0_example :
  R_omega_0 [1; 2] [3; 4; 5] (1 / 2) = Ok [3 / 2; 5; 13 / 2; 5].
Proof.
  unfold R_omega_0. rewrite convolve_example. simpl. same_entries.
Qed.

Example Frac_omega_0_example :
  Frac_omega_0 2 [0; 1; 3] = Ok [0; 1 / 4; 3 / 8].
Proof.
  rewrite Frac_omega_0_nonneg by (try lra; repeat constructor; lra).
  unfold Frac. simpl. same_entries.
Qed.

Example Frac_omega_0_pole : Frac_omega_0 2 [-1] = NotReal.
Proof.
  unfold Frac_omega_0, np.divide, np.broadcast. simpl. unfold np.divide1.
  destruct (Req_dec_T (2 + 2 * -1) 0) as [_|H]; [reflexivity | lra].
Qed.

Example Gamma_Sc_example :
  Gamma_Sc 2 (1 / 2) [4; 6] [1 / 4; 1 / 3] = Ok 3.
Proof.
  rewrite Gamma_Sc_formula by reflexivity. simpl length.
  rewrite !sum_upto_S, sum_upto_0. simpl. f_equal. lra.
Qed.

(** * Further properties of the code *)

(** ** The line shape *)

Lemma Lorentz_as_ratio (x x0 Gamma : R) :
  0 < Gamma ->
  Lorentz x x0 Gamma
  = Lorentz x0 x0 Gamma / (1 + ((x - x0) / (Gamma / 2)) ^ 2).
Proof.
  intros HG. rewrite Lorentz_peak_value by exact HG. unfold Lorentz.
  rewrite Rmult_1_r. reflexivity.
Qed.

Lemma Lorentz_peak_pos (x0 Gamma : R) : 0 < Gamma -> 0 < Lorentz x0 x0 Gamma.
Proof. intros HG. apply Lorentz_pos, HG. Qed.

Lemma square_le_abs (u v : R) : 0 <= v -> (u ^ 2 <= v ^ 2 <-> Rabs u <= v).
Proof.
  intros Hv. split; intros H.
  - apply Rabs_le. split; nra.
  - rewrite <- (pow2_abs u). pose proof (Rabs_pos u). nra.
Qed.

(** X1.  [Gamma] is the full width at half maximum: the line is at half its
    peak exactly [Gamma/2] on either side of the centre, and at or above
    half its peak exactly on the offsets within [Gamma/2] of the centre. *)
Theorem Lorentz_full_width_at_half_maximum (x0 Gamma : R) :
  0 < Gamma ->
  Lorentz (x0 + Gamma / 2) x0 Gamma = Lorentz x0 x0 Gamma / 2 /\
  Lorentz (x0 - Gamma / 2) x0 Gamma = Lorentz x0 x0 Gamma / 2 /\
  forall x, Lorentz x0 x0 Gamma / 2 <= Lorentz x x0 Gamma
            <-> Rabs (x - x0) <= Gamma / 2.
Proof.
  intros HG. pose proof (Lorentz_peak_pos x0 Gamma HG) as Hp.
  split; [|split].
  - rewrite Lorentz_as_ratio by exact HG.
    replace ((x0 + Gamma / 2 - x0) / (Gamma / 2)) with 1 by (field; lra).
    f_equal. lra.
  - rewrite Lorentz_as_ratio by exact HG.
    replace ((x0 - Gamma / 2 - x0) / (Gamma / 2)) with (-1) by (field; lra).
    f_equal. lra.
  - intros x. rewrite (Lorentz_as_ratio x) by exact HG.
    set (u := (x - x0) / (Gamma / 2)).
    assert (Hu : x - x0 = u * (Gamma / 2)) by (unfold u; field; lra).
    assert (Hd : 0 < 1 + u ^ 2) by (pose proof (pow2_ge_0 u); lra).
    set (A := Lorentz x0 x0 Gamma) in *.
    assert (Hiff : A / 2 <= A / (1 + u ^ 2) <-> u ^ 2 <= 1 ^ 2).
    { split; intros H.
      - apply (Rmult_le_compat_r (2 * (1 + u ^ 2))) in H; [|lra].
        replace (A / 2 * (2 * (1 + u ^ 2))) with (A * (1 + u ^ 2)) in H
          by field.
        replace (A / (1 + u ^ 2) * (2 * (1 + u ^ 2))) with (A * 2) in H
          by (field; lra).
        nra.
      - apply (Rmult_le_reg_r (2 * (1 + u ^ 2))); [lra|].
        replace (A / 2 * (2 * (1 + u ^ 2))) with (A * (1 + u ^ 2)) by field.
        replace (A / (1 + u ^ 2) * (2 * (1 + u ^ 2))) with (A * 2)
          by (field; lra).
        nra. }
    rewrite Hiff, (square_le_abs u 1) by lra.
    rewrite Hu, Rabs_mult, (Rabs_pos_eq (Gamma / 2)) by lra.
    split; intros H; nra.
Qed.

Lemma Lorentz_full_width_at_half_maximum_witness :
  0 < 4 /\
  Lorentz (1 + 4 / 2) 1 4 = Lorentz 1 1 4 / 2 /\
  Lorentz (1 - 4 / 2) 1 4 = Lorentz 1 1 4 / 2 /\
  forall x, Lorentz 1 1 4 / 2 <= Lorentz x 1 4 <-> Rabs (x - 1) <= 4 / 2.
Proof.
  split; [lra | apply (Lorentz_full_width_at_half_maximum 1 4); lra].
Defined.

(** X2.  The line is symmetric about its centre and falls strictly with
    the distance from it. *)
Theorem Lorentz_symmetric_and_unimodal (x0 Gamma : R) :
  0 < Gamma ->
  (forall delta,
     Lorentz (x0 + delta) x0 Gamma = Lorentz (x0 - delta) x0 Gamma) /\
  (forall x y, Rabs (x - x0) < Rabs (y - x0) ->
     Lorentz y x0 Gamma < Lorentz x x0 Gamma).
Proof.
  intros HG. pose proof (Lorentz_peak_pos x0 Gamma HG) as Hp. split.
  - intros delta. unfold Lorentz. do 2 f_equal.
    replace (x0 + delta - x0) with delta by ring.
    replace (x0 - delta - x0) with (- delta) by ring.
    unfold Rdiv. rewrite <- Ropp_mult_distr_l. simpl. ring.
  - intros x y Hxy.
    rewrite (Lorentz_as_ratio x), (Lorentz_as_ratio y) by exact HG.
    set (u := (x - x0) / (Gamma / 2)). set (v := (y - x0) / (Gamma / 2)).
    assert (Hu : x - x0 = u * (Gamma / 2)) by (unfold u; field; lra).
    assert (Hv : y - x0 = v * (Gamma / 2)) by (unfold v; field; lra).
    rewrite Hu, Hv, !Rabs_mult, (Rabs_pos_eq (Gamma / 2)) in Hxy by lra.
    assert (Huv : Rabs u < Rabs v) by nra.
    assert (Hsq : u ^ 2 < v ^ 2).
    { rewrite <- (pow2_abs u), <- (pow2_abs v).
      pose proof (Rabs_pos u). nra. }
    pose proof (pow2_ge_0 u).
    unfold Rdiv. apply Rmult_lt_compat_l; [exact Hp|].
    apply Rinv_lt_contravar; nra.
Qed.

Lemma Lorentz_symmetric_and_unimodal_witness :
  0 < 2 /\
  (forall delta, Lorentz (1 + delta) 1 2 = Lorentz (1 - delta) 1 2) /\
  (forall x y, Rabs (x - 1) < Rabs (y - 1) -> Lorentz y 1 2 < Lorentz x 1 2).
Proof.
  split; [lra | apply (Lorentz_symmetric_and_unimodal 1 2); lra].
Defined.

(** X3.  A change of frequency unit: scaling offset, centre and width by
    the same non-zero factor divides the density by that factor.  A width
    of the wrong sign only flips the sign of the density. *)
Theorem Lorentz_rescale (k x x0 Gamma : R) :
  k <> 0 -> Gamma <> 0 ->
  Lorentz (k * x) (k * x0) (k * Gamma) = Lorentz x x0 Gamma / k /\
  Lorentz x x0 (- Gamma) = - Lorentz x x0 Gamma.
Proof.
  intros Hk HG. pose proof PI_RGT_0 as Hpi.
  assert (Hden : forall u : R, 1 + u ^ 2 <> 0).
  { intros u. pose proof (pow2_ge_0 u). lra. }
  split.
  - unfold Lorentz.
    replace ((k * x - k * x0) / (k * Gamma / 2))
      with ((x - x0) / (Gamma / 2)) by (field; split; assumption).
    specialize (Hden ((x - x0) / (Gamma / 2))).
    set (u := (x - x0) / (Gamma / 2)) in *.
    field. repeat split; try assumption; lra.
  - unfold Lorentz.
    replace ((x - x0) / (- Gamma / 2)) with (- ((x - x0) / (Gamma / 2)))
      by (field; assumption).
    replace ((- ((x - x0) / (Gamma / 2))) ^ 2)
      with (((x - x0) / (Gamma / 2)) ^ 2) by ring.
    specialize (Hden ((x - x0) / (Gamma / 2))).
    set (u := (x - x0) / (Gamma / 2)) in *.
    field. repeat split; try assumption; lra.
Qed.

Lemma Lorentz_rescale_witness :
  2 * PI <> 0 /\ 3 <> 0 /\
  Lorentz (2 * PI * 5) (2 * PI * 1) (2 * PI * 3) = Lorentz 5 1 3 / (2 * PI) /\
  Lorentz 5 1 (- 3) = - Lorentz 5 1 3.
Proof.
  assert (H1 : 2 * PI <> 0) by (pose proof PI_RGT_0; lra).
  assert (H2 : 3 <> 0) by lra.
  split; [exact H1|]. split; [exact H2|].
  apply (Lorentz_rescale (2 * PI) 5 1 3 H1 H2).
Defined.

(** ** How the grids fail *)


Lemma Lorentz_even (x Gamma : R) : Lorentz (- x) 0 Gamma = Lorentz x 0 Gamma.
Proof.
  unfold Lorentz. do 2 f_equal. unfold Rdiv. ring.
Qed.

(** X7.  For positive linewidths the combined axis is symmetric about
    zero: it ends exactly at [1.5 Gamma_L + 1.5 Gamma_H], its samples
    cancel in pairs, and so the atom density evaluated on it reads the
    same in both directions. *)
Theorem combined_axis_symmetric (Gamma_L Gamma_H : R) :
  0 < Gamma_L -> 0 < Gamma_H ->
  exists om om0 tot,
    grid Gamma_L Gamma_H = Ok (mkGrid om om0 tot) /\
    last tot 0 = 3 * Gamma_L / 2 + 3 * Gamma_H / 2 /\
    (forall i, (i < length tot)%nat ->
       nth i tot 0 + nth (length tot - 1 - i) tot 0 = 0) /\
    (forall N Gamma_In, Gamma_In <> 0 ->
       exists n, N_Inhom_omega_0 N Gamma_In tot = Ok n /\ rev n = n).
Proof.
  intros HL HH.
  destruct (grid_facts Gamma_L Gamma_H HL HH)
    as (om & om0 & tot & G & _ & _ & L & L0 & Lt & U & _ & Ut & B & _).
  destruct (axis_lengths Gamma_L Gamma_H HL HH) as (H1 & H2 & H3 & _).
  destruct (num_pos Gamma_L Gamma_H HL HH) as [Hnum En].
  set (n1 := np.arange_len (- 3 * Gamma_L / 2) (3 * Gamma_L / 2) _) in *.
  set (n2 := np.arange_len (- 3 * Gamma_H / 2) (3 * Gamma_H / 2) _) in *.
  set (s := np.linspace_step _ _ _) in *.
  set (start := - 3 * Gamma_L / 2 - 3 * Gamma_H / 2) in *.
  assert (Hn : INR (length tot) - 1 = INR n1 + INR n2 - 2).
  { rewrite Lt, minus_INR, plus_INR by lia. simpl. lra. }
  assert (Hs : (INR (length tot) - 1) * s = - 2 * start).
  { rewrite Hn, <- En. unfold s, np.linspace_step, start.
    field. rewrite En. lra. }
  assert (Hsym : forall i, (i < length tot)%nat ->
            nth i tot 0 + nth (length tot - 1 - i) tot 0 = 0).
  { intros i Hi. rewrite !Ut by lia.
    rewrite !minus_INR by lia. simpl INR. nra. }
  exists om, om0, tot. split; [exact G|]. split; [|split; [exact Hsym|]].
  - rewrite last_as_nth, Ut by lia.
    rewrite minus_INR by lia. simpl INR. unfold start in *. nra.
  - intros N Gamma_In HIn. unfold N_Inhom_omega_0, Lorentz_array.
    pose proof PI_RGT_0 as Hpi.
    destruct (Req_dec_T (PI * (Gamma_In / 2)) 0) as [E|_].
    { exfalso. apply HIn.
      apply Rmult_integral in E. destruct E as [E|E]; lra. }
    cbn [bind]. eexists. split; [reflexivity|].
    rewrite map_map.
    apply nth_ext with (d := 0) (d' := 0); [apply length_rev|].
    intros i Hi. rewrite length_rev, length_map in Hi.
    rewrite rev_nth by (rewrite length_map; exact Hi).
    rewrite length_map.
    rewrite !(nth_map_default0 (fun x => N * Lorentz x 0 Gamma_In)) by lia.
    f_equal. rewrite <- (Lorentz_even (nth i tot 0)). f_equal.
    specialize (Hsym i Hi).
    replace (length tot - S i)%nat with (length tot - 1 - i)%nat by lia.
    lra.
Qed.

Lemma combined_axis_symmetric_witness :
  0 < 1 /\ 0 < 2 /\
  exists om om0 tot,
    grid 1 2 = Ok (mkGrid om om0 tot) /\
    last tot 0 = 3 * 1 / 2 + 3 * 2 / 2 /\
    (forall i, (i < length tot)%nat ->
       nth i tot 0 + nth (length tot - 1 - i) tot 0 = 0) /\
    (forall N Gamma_In, Gamma_In <> 0 ->
       exists n, N_Inhom_omega_0 N Gamma_In tot = Ok n /\ rev n = n).
Proof.
  split; [lra|]. split; [lra|]. apply (combined_axis_symmetric 1 2); lra.
Defined.

(** ** The convolution engine, continued *)

Lemma sum_upto_scale (n : nat) (k : R) (f : nat -> R) :
  sum_upto n (fun i => k * f i) = k * sum_upto n f.
Proof.
  induction n as [|n IH]; [rewrite !sum_upto_0; lra|].
  rewrite !sum_upto_S, IH. lra.
Qed.

Lemma sum_upto_plus (n : nat) (f g : nat -> R) :
  sum_upto n (fun i => f i + g i) = sum_upto n f + sum_upto n g.
Proof.
  induction n as [|n IH]; [rewrite !sum_upto_0; lra|].
  rewrite !sum_upto_S, IH. lra.
Qed.

Lemma sum_upto_swap (n m : nat) (F : nat -> nat -> R) :
  sum_upto n (fun k => sum_upto m (F k))
  = sum_upto m (fun j => sum_upto n (fun k => F k j)).
Proof.
  induction n as [|n IH].
  - rewrite sum_upto_0. symmetry. apply sum_upto_zero. intros. apply sum_upto_0.
  - rewrite sum_upto_S, IH, <- sum_upto_plus.
    apply sum_upto_ext. intros j _. rewrite sum_upto_S. reflexivity.
Qed.

Lemma same_entries_same_array (l l' : list R) :
  length l = length l' ->
  (forall i, (i < length l)%nat -> nth i l 0 = nth i l' 0) -> l = l'.
Proof. intros HL H. apply nth_ext with (d := 0) (d' := 0); assumption. Qed.

(** X8.  The convolution engine does not care which profile comes first:
    swapping flux and cross-section gives the same outcome, the same error
    on an empty profile and the same array otherwise. *)
Theorem R_omega_0_commutes (a v : list R) (d : R) :
  R_omega_0 a v d = R_omega_0 v a d.
Proof.
  destruct (R_omega_0_cases a v d) as [(Hempty & E) | (Ha & Hv & _)].
  - rewrite E. symmetry. unfold R_omega_0.
    rewrite convolve_empty by tauto. reflexivity.
  - destruct (R_omega_0_spec a v d Ha Hv) as (Rs & E & L & N).
    destruct (R_omega_0_spec v a d Hv Ha) as (Rs' & E' & L' & N').
    rewrite E, E'. f_equal. apply same_entries_same_array; [lia|].
    intros i Hi. rewrite N, N' by lia. f_equal. apply conv_sum_comm.
Qed.

Lemma nth_scaled (k : R) (l : list R) (i : nat) :
  nth i (map (fun y => k * y) l) 0 = k * nth i l 0.
Proof.
  destruct (Nat.lt_ge_cases i (length l)) as [Hi|Hi].
  - apply (nth_map_default0 (fun y => k * y)). exact Hi.
  - rewrite !nth_overflow by (rewrite ?length_map; exact Hi). lra.
Qed.

Lemma conv_sum_scale (k : R) (a v : list R) (j : nat) :
  conv_sum (map (fun y => k * y) a) v j = k * conv_sum a v j.
Proof.
  unfold conv_sum. rewrite length_map, <- sum_upto_scale.
  apply sum_upto_ext. intros i _. unfold conv_term.
  rewrite nth_scaled. ring.
Qed.

(** X9.  The absorption rate is proportional to the total photon flux:
    with [k] times the flux in line 214, every entry of the rate array of
    line 217 is [k] times what it was. *)
Theorem rate_proportional_to_flux
  (k Phi Gamma_L d : R) (om sigma_om0 : list R) :
  Gamma_L <> 0 -> om <> [] -> sigma_om0 <> [] ->
  exists l l' Rs,
    Phi_omega Phi Gamma_L om = Ok l /\
    R_omega_0 l sigma_om0 d = Ok Rs /\
    Phi_omega (k * Phi) Gamma_L om = Ok l' /\
    R_omega_0 l' sigma_om0 d = Ok (map (fun y => k * y) Rs).
Proof.
  intros HG Hom Hs. pose proof PI_RGT_0 as Hpi.
  assert (EL : forall F, Phi_omega F Gamma_L om
             = Ok (map (fun y => F * y)
                       (map (fun x => Lorentz x 0 Gamma_L) om))).
  { intros F. unfold Phi_omega, Lorentz_array.
    destruct (Req_dec_T (PI * (Gamma_L / 2)) 0) as [E|_]; [|reflexivity].
    exfalso. apply HG. apply Rmult_integral in E. destruct E; lra. }
  set (L0 := map (fun x => Lorentz x 0 Gamma_L) om) in *.
  assert (HL0 : forall F, map (fun y => F * y) L0 <> []).
  { intros F E. apply Hom. apply (f_equal (@length R)) in E.
    unfold L0 in E. rewrite !length_map in E.
    destruct om; [reflexivity | discriminate E]. }
  destruct (R_omega_0_spec _ sigma_om0 d (HL0 Phi) Hs) as (Rs & E & L & N).
  destruct (R_omega_0_spec _ sigma_om0 d (HL0 (k * Phi)) Hs)
    as (Rs' & E' & L' & N').
  exists (map (fun y => Phi * y) L0), (map (fun y => k * Phi * y) L0), Rs.
  split; [apply EL|]. split; [exact E|]. split; [apply EL|].
  rewrite E'. f_equal.
  rewrite !length_map in L, L'.
  apply same_entries_same_array; [rewrite length_map; lia|].
  intros i Hi. rewrite nth_scaled, N', N by lia.
  replace (map (fun y => k * Phi * y) L0)
    with (map (fun y => k * y) (map (fun y => Phi * y) L0)).
  - rewrite conv_sum_scale. ring.
  - rewrite map_map. apply map_ext. intros y. ring.
Qed.

Lemma rate_proportional_to_flux_witness :
  2 <> 0 /\ [0; 1] <> [] /\ [1; 2; 3] <> [] /\
  exists l l' Rs,
    Phi_omega 5 2 [0; 1] = Ok l /\
    R_omega_0 l [1; 2; 3] (1 / 2) = Ok Rs /\
    Phi_omega (7 * 5) 2 [0; 1] = Ok l' /\
    R_omega_0 l' [1; 2; 3] (1 / 2) = Ok (map (fun y => 7 * y) Rs).
Proof.
  split; [lra|]. split; [discriminate|]. split; [discriminate|].
  apply (rate_proportional_to_flux 7 5 2 (1 / 2) [0; 1] [1; 2; 3]);
    try discriminate; lra.
Defined.

(** X10.  The rates add up to the product of the two profile sums times
    the step: the discrete form of "the integral of a convolution is the
    product of the integrals". *)
Theorem total_rate_is_product_of_sums (a v : list R) (d : R) :
  a <> [] -> v <> [] ->
  exists Rs, R_omega_0 a v d = Ok Rs /\
    np.sum Rs = d * (np.sum a * np.sum v).
Proof.
  intros Ha Hv.
  destruct (R_omega_0_spec a v d Ha Hv) as (Rs & E & L & N).
  exists Rs. split; [exact E|].
  apply nonempty_length in Ha.
  rewrite (sum_as_sum_upto Rs), (sum_upto_ext _ _ (fun k => d * conv_sum a v k))
    by exact N.
  rewrite sum_upto_scale. f_equal.
  unfold conv_sum. rewrite sum_upto_swap.
  transitivity (sum_upto (length a) (fun j => np.sum v * nth j a 0)).
  - apply sum_upto_ext. intros j Hj.
    rewrite (sum_upto_window (length Rs) j (length v)
               (fun k => conv_term a v k j)).
    + rewrite (sum_as_sum_upto v), Rmult_comm, <- sum_upto_scale.
      apply sum_upto_ext. intros t Ht.
      rewrite conv_term_inside by lia. do 2 f_equal. lia.
    + lia.
    + intros k _ [Hk|Hk].
      * apply conv_term_zero_above. exact Hk.
      * apply conv_term_zero_below. exact Hk.
  - rewrite sum_upto_scale, <- sum_as_sum_upto. ring.
Qed.

Lemma total_rate_is_product_of_sums_witness :
  [1; 2] <> [] /\ [3; 4; 5] <> [] /\
  exists Rs, R_omega_0 [1; 2] [3; 4; 5] (1 / 2) = Ok Rs /\
    np.sum Rs = 1 / 2 * (np.sum [1; 2] * np.sum [3; 4; 5]).
Proof.
  split; [discriminate|]. split; [discriminate|].
  apply (total_rate_is_product_of_sums [1; 2] [3; 4; 5] (1 / 2));
    discriminate.
Defined.

Lemma sum_upto_pos (n : nat) (f : nat -> R) :
  (forall i, (i < n)%nat -> 0 <= f i) ->
  (exists i, (i < n)%nat /\ 0 < f i) ->
  0 < sum_upto n f.
Proof.
  induction n as [|n IH]; intros Hnn (i & Hi & Hpos); [lia|].
  rewrite sum_upto_S.
  destruct (Nat.eq_dec i n) as [->|Hne].
  - assert (0 <= sum_upto n f) by (apply sum_upto_nonneg; intros; apply Hnn; lia).
    lra.
  - assert (0 < sum_upto n f).
    { apply IH; [intros; apply Hnn; lia|]. exists i. split; [lia | exact Hpos]. }
    assert (0 <= f n) by (apply Hnn; lia). lra.
Qed.

Lemma positive_nth (l : list R) (i : nat) :
  positive l -> (i < length l)%nat -> 0 < nth i l 0.
Proof.
  intros H Hi. unfold positive in H. rewrite Forall_forall in H.
  apply H, nth_In, Hi.
Qed.

Lemma positive_nonneg (l : list R) : positive l -> nonneg l.
Proof.
  unfold positive, nonneg. apply Forall_impl. intros r Hr. lra.
Qed.

Lemma conv_sum_pos (a v : list R) (k : nat) :
  positive a -> positive v -> (1 <= length a)%nat -> (1 <= length v)%nat ->
  (k < length a + length v - 1)%nat -> 0 < conv_sum a v k.
Proof.
  intros Ha Hv La Lv Hk. unfold conv_sum. apply sum_upto_pos.
  - intros j _. apply conv_term_nonneg; apply positive_nonneg; assumption.
  - exists (k - Nat.min k (length v - 1))%nat. split; [lia|].
    rewrite conv_term_inside by lia.
    apply Rmult_lt_0_compat; apply positive_nth; try assumption; lia.
Qed.

Lemma scaled_Lorentz_positive (k Gamma : R) (om : list R) :
  0 < Gamma -> 0 < k ->
  positive (map (fun y => k * y) (map (fun x => Lorentz x 0 Gamma) om)).
Proof.
  intros HG Hk. unfold positive. rewrite map_map. apply Forall_map.
  apply Forall_forall. intros x _.
  apply Rmult_lt_0_compat; [exact Hk | apply Lorentz_pos, HG].
Qed.

Lemma Frac_pos (Gamma_Ex r : R) : 0 < Gamma_Ex -> 0 < r -> 0 < Frac Gamma_Ex r.
Proof.
  intros HG Hr. unfold Frac. apply Rdiv_lt_0_compat; lra.
Qed.

(** X11.  With positive linewidths, flux and cross-section every bin has a
    strictly positive absorption rate, the peak Rabi frequency is a
    positive real number, and for a positive atom number the scattering
    rate is strictly positive. *)
Theorem rates_strictly_positive (p : params) (Phi : R) :
  0 < Gamma_L p -> 0 < Gamma_H p -> 0 < Gamma_Ex p -> 0 < Gamma_In p ->
  0 < sigma p -> 0 < Phi ->
  exists om om0 tot Rs out Om,
    grid (Gamma_L p) (Gamma_H p) = Ok (mkGrid om om0 tot) /\
    R_omega_0 (flux_profile p Phi om) (cross_section_profile p om0)
              (d_omega (Gamma_L p) (Gamma_H p)) = Ok Rs /\
    positive Rs /\
    model p Phi (mkGrid om om0 tot) = Ok out /\
    out_Omega_0 out = Ok Om /\ 0 < Om /\
    (0 < N_Inhom p -> 0 < out_Gamma_Sc out).
Proof.
  intros HL HH HEx HIn Hsig HPhi. pose proof PI_RGT_0 as Hpi.
  destruct (grid_Ok _ _ HL HH) as (om & om0 & tot & G & Hom & Hom0 & Lt).
  pose proof (d_omega_pos _ _ HL HH) as Hd.
  destruct (model_Ok p Phi om om0 tot)
    as (Rs & out & E & NRs & LRs & F & M & S & m & Em & EOm);
    try assumption; try lra.
  assert (L1 : (1 <= length om)%nat) by (apply nonempty_length, Hom).
  assert (L2 : (1 <= length om0)%nat) by (apply nonempty_length, Hom0).
  assert (PRs : positive Rs).
  { apply Forall_forall. intros r Hr.
    destruct (In_nth Rs r 0 Hr) as (i & Hi & <-).
    rewrite F by exact Hi. apply Rmult_lt_0_compat; [exact Hd|].
    apply conv_sum_pos.
    - apply scaled_Lorentz_positive; assumption.
    - apply scaled_Lorentz_positive; [assumption|].
      apply Rmult_lt_0_compat; [assumption | nra].
    - unfold flux_profile. rewrite !length_map. exact L1.
    - unfold cross_section_profile. rewrite !length_map. exact L2.
    - unfold flux_profile, cross_section_profile. rewrite !length_map. lia. }
  destruct (np_max_spec Rs m Em) as [Hin _].
  assert (Hm : 0 < m).
  { unfold positive in PRs. rewrite Forall_forall in PRs. apply PRs, Hin. }
  exists om, om0, tot, Rs, out, (sqrt (m * Gamma_H p)).
  split; [exact G|]. split; [exact E|]. split; [exact PRs|].
  split; [exact M|]. split; [exact EOm|]. split.
  - apply sqrt_lt_R0. apply Rmult_lt_0_compat; assumption.
  - intros HN. rewrite S. unfold scattering.
    apply Rmult_lt_0_compat; [exact HEx|].
    assert (Hterm : forall i, (i < length tot)%nat ->
      0 < N_Inhom p * Lorentz (nth i tot 0) 0 (Gamma_In p)
          * d_omega (Gamma_L p) (Gamma_H p) * Frac (Gamma_Ex p) (nth i Rs 0)).
    { intros i Hi.
      apply Rmult_lt_0_compat;
        [|apply Frac_pos; [exact HEx | apply positive_nth; [exact PRs | lia]]].
      apply Rmult_lt_0_compat; [|exact Hd].
      apply Rmult_lt_0_compat; [exact HN | apply Lorentz_pos, HIn]. }
    apply sum_upto_pos.
    + intros i Hi. apply Rlt_le, Hterm, Hi.
    + exists 0%nat. split; [lia | apply Hterm; lia].
Qed.

Lemma rates_strictly_positive_witness :
  0 < Gamma_L example_params /\ 0 < Gamma_H example_params /\
  0 < Gamma_Ex example_params /\ 0 < Gamma_In example_params /\
  0 < sigma example_params /\ 0 < 7 /\
  exists om om0 tot Rs out Om,
    grid (Gamma_L example_params) (Gamma_H example_params)
    = Ok (mkGrid om om0 tot) /\
    R_omega_0 (flux_profile example_params 7 om)
              (cross_section_profile example_params om0)
              (d_omega (Gamma_L example_params) (Gamma_H example_params))
    = Ok Rs /\
    positive Rs /\
    model example_params 7 (mkGrid om om0 tot) = Ok out /\
    out_Omega_0 out = Ok Om /\ 0 < Om /\
    (0 < N_Inhom example_params -> 0 < out_Gamma_Sc out).
Proof.
  assert (H1 : 0 < Gamma_L example_params) by (simpl; lra).
  assert (H2 : 0 < Gamma_H example_params) by (simpl; lra).
  assert (H3 : 0 < Gamma_Ex example_params) by (simpl; lra).
  assert (H4 : 0 < Gamma_In example_params) by (simpl; lra).
  assert (H5 : 0 < sigma example_params) by (simpl; lra).
  assert (H6 : 0 < 7) by lra.
  repeat (split; [assumption|]).
  exact (rates_strictly_positive example_params 7 H1 H2 H3 H4 H5 H6).
Defined.

(** ** Peak values and the Rabi frequency *)

Lemma fold_left_Rmax_map (f : R -> R) (Q : R -> Prop) :
  (forall x y, Q x -> Q y -> x <= y -> f x <= f y) ->
  forall tl x, Q x -> Forall Q tl ->
    fold_left Rmax (map f tl) (f x) = f (fold_left Rmax tl x).
Proof.
  intros Hmono tl. induction tl as [|y tl IH]; intros x Hx Htl; [reflexivity|].
  inversion Htl as [|? ? Hy Htl']; subst. simpl.
  destruct (Rle_dec x y) as [Hle|Hgt].
  - rewrite (Rmax_right x y) by exact Hle.
    rewrite (Rmax_right (f x) (f y)) by (apply Hmono; assumption).
    apply IH; assumption.
  - rewrite (Rmax_left x y) by lra.
    rewrite (Rmax_left (f x) (f y)) by (apply Hmono; try assumption; lra).
    apply IH; assumption.
Qed.

(** The maximum of an array goes through a non-decreasing map. *)
Lemma np_max_map_monotone (f : R -> R) (Q : R -> Prop) (l : list R) (m : R) :
  (forall x y, Q x -> Q y -> x <= y -> f x <= f y) ->
  Forall Q l -> np.max l = Ok m -> np.max (map f l) = Ok (f m).
Proof.
  intros Hmono HQ E. destruct l as [|x tl]; [discriminate E|].
  simpl in E. injection E as <-. simpl. f_equal.
  inversion HQ; subst. apply (fold_left_Rmax_map f Q); assumption.
Qed.

(** X12.  The peak Rabi frequency of line 222.  An empty rate array makes
    [np.max] raise; a negative product of peak rate and linewidth gives
    [nan]; otherwise the result is the non-negative number whose square is
    the peak rate times [Gamma_H], and no bin exceeds it. *)
Theorem peak_Rabi_frequency (Gamma_H : R) (Rs : list R) :
  (Rs = [] -> Omega_0 Gamma_H Rs = Raise ValueError) /\
  (forall m, np.max Rs = Ok m -> m * Gamma_H < 0 ->
     Omega_0 Gamma_H Rs = NotReal) /\
  (forall m, np.max Rs = Ok m -> 0 <= m * Gamma_H ->
     exists Om, Omega_0 Gamma_H Rs = Ok Om /\ 0 <= Om /\
       Om ^ 2 = m * Gamma_H /\
       (0 <= Gamma_H -> forall r, In r Rs -> sqrt (r * Gamma_H) <= Om)).
Proof.
  split; [|split].
  - intros ->. reflexivity.
  - intros m Em Hneg. unfold Omega_0. rewrite Em. cbn [bind].
    unfold np.sqrt. destruct (Rlt_dec (m * Gamma_H) 0); [reflexivity | lra].
  - intros m Em Hpos. unfold Omega_0. rewrite Em. cbn [bind].
    rewrite np_sqrt_Ok by exact Hpos.
    exists (sqrt (m * Gamma_H)). split; [reflexivity|].
    split; [apply sqrt_pos|]. split; [apply pow2_sqrt; exact Hpos|].
    intros HG r Hr. apply sqrt_le_1_alt.
    destruct (np_max_spec Rs m Em) as [_ Hub].
    apply Rmult_le_compat_r; [exact HG | apply Hub, Hr].
Qed.

(** X13.  The peak Rabi frequency grows as the square root of the flux:
    when every rate is multiplied by [k >= 0], as [k] times the flux does,
    the peak Rabi frequency is multiplied by [sqrt k]. *)
Theorem Rabi_frequency_scales_as_sqrt (k Gamma_H : R) (Rs : list R) :
  0 <= k -> 0 <= Gamma_H -> Rs <> [] -> nonneg Rs ->
  exists Om, Omega_0 Gamma_H Rs = Ok Om /\
    Omega_0 Gamma_H (map (fun y => k * y) Rs) = Ok (sqrt k * Om).
Proof.
  intros Hk HG Hne HRs.
  destruct (np_max_Ok Rs Hne) as (m & Em).
  assert (Hm : 0 <= m).
  { destruct (np_max_spec Rs m Em) as [Hin _].
    unfold nonneg in HRs. rewrite Forall_forall in HRs. apply HRs, Hin. }
  assert (Em' : np.max (map (fun y => k * y) Rs) = Ok (k * m)).
  { apply (np_max_map_monotone (fun y => k * y) (fun _ => True));
      [| apply Forall_forall; intros; exact I | exact Em].
    intros x y _ _ Hxy. apply Rmult_le_compat_l; assumption. }
  exists (sqrt (m * Gamma_H)). unfold Omega_0. rewrite Em, Em'. cbn [bind].
  assert (0 <= m * Gamma_H) by (apply Rmult_le_pos; assumption).
  rewrite !np_sqrt_Ok.
  - split; [reflexivity|]. f_equal.
    rewrite Rmult_assoc. apply sqrt_mult; assumption.
  - rewrite Rmult_assoc. apply Rmult_le_pos; assumption.
  - assumption.
Qed.

Lemma Rabi_frequency_scales_as_sqrt_witness :
  0 <= 4 /\ 0 <= 3 /\ [1; 5; 2] <> [] /\ nonneg [1; 5; 2] /\
  exists Om, Omega_0 3 [1; 5; 2] = Ok Om /\
    Omega_0 3 (map (fun y => 4 * y) [1; 5; 2]) = Ok (sqrt 4 * Om).
Proof.
  assert (H1 : 0 <= 4) by lra. assert (H2 : 0 <= 3) by lra.
  assert (H3 : [1; 5; 2] <> []) by discriminate.
  assert (H4 : nonneg [1; 5; 2]) by (repeat constructor; lra).
  repeat (split; [assumption|]).
  exact (Rabi_frequency_scales_as_sqrt 4 3 [1; 5; 2] H1 H2 H3 H4).
Defined.

(** X14.  The printed peak fraction excited (line 226) is the saturation
    formula at the peak rate; it lies in [[0, 1/2)] and follows from the
    printed peak rate in linewidths [x] (line 227) as [x / (1 + 2 x)]. *)
Theorem peak_fraction_from_peak_rate (Gamma_Ex : R) (Rs : list R) :
  0 < Gamma_Ex -> Rs <> [] -> nonneg Rs ->
  exists m Fr x,
    np.max Rs = Ok m /\
    Frac_omega_0 Gamma_Ex Rs = Ok Fr /\
    peak_fraction_excited Fr = Ok (Frac Gamma_Ex m) /\
    0 <= Frac Gamma_Ex m < 1 / 2 /\
    peak_rate_in_linewidths Gamma_Ex Rs = Ok x /\
    Frac Gamma_Ex m = x / (1 + 2 * x).
Proof.
  intros HG Hne HRs.
  destruct (np_max_Ok Rs Hne) as (m & Em).
  assert (Hm : 0 <= m).
  { destruct (np_max_spec Rs m Em) as [Hin _].
    unfold nonneg in HRs. rewrite Forall_forall in HRs. apply HRs, Hin. }
  exists m, (map (Frac Gamma_Ex) Rs), (m / Gamma_Ex).
  split; [exact Em|].
  split; [apply Frac_omega_0_nonneg; assumption|]. split.
  - unfold peak_fraction_excited.
    apply (np_max_map_monotone (Frac Gamma_Ex) (fun r => 0 <= r));
      [| exact HRs | exact Em].
    intros x y Hx _ Hxy. apply Frac_monotone; assumption.
  - split; [apply Frac_bounds; assumption|]. split.
    + unfold peak_rate_in_linewidths. rewrite Em. cbn [bind].
      unfold np.divide1. destruct (Req_dec_T Gamma_Ex 0); [lra | reflexivity].
    + unfold Frac. field. split; lra.
Qed.

Lemma peak_fraction_from_peak_rate_witness :
  0 < 2 /\ [1; 5; 2] <> [] /\ nonneg [1; 5; 2] /\
  exists m Fr x,
    np.max [1; 5; 2] = Ok m /\
    Frac_omega_0 2 [1; 5; 2] = Ok Fr /\
    peak_fraction_excited Fr = Ok (Frac 2 m) /\
    0 <= Frac 2 m < 1 / 2 /\
    peak_rate_in_linewidths 2 [1; 5; 2] = Ok x /\
    Frac 2 m = x / (1 + 2 * x).
Proof.
  assert (H1 : 0 < 2) by lra.
  assert (H3 : [1; 5; 2] <> []) by discriminate.
  assert (H4 : nonneg [1; 5; 2]) by (repeat constructor; lra).
  repeat (split; [assumption|]).
  exact (peak_fraction_from_peak_rate 2 [1; 5; 2] H1 H3 H4).
Defined.

(** ** The scattering rate and the printed summary *)

Lemma Gamma_Frac_le (Gamma_Ex r : R) :
  0 < Gamma_Ex -> 0 <= r -> Gamma_Ex * Frac Gamma_Ex r <= r.
Proof.
  intros HG Hr. unfold Frac.
  replace (Gamma_Ex * (r / (Gamma_Ex + 2 * r)))
    with (r * (Gamma_Ex / (Gamma_Ex + 2 * r))) by (field; lra).
  assert (Hq : Gamma_Ex / (Gamma_Ex + 2 * r) <= 1).
  { apply Rmult_le_reg_r with (Gamma_Ex + 2 * r); [lra|].
    unfold Rdiv. rewrite Rmult_assoc, Rinv_l by lra. lra. }
  nra.
Qed.

Lemma sum_scaled_as_sum_upto (d : R) (l : list R) :
  np.sum (map (fun y => y * d) l)
  = sum_upto (length l) (fun i => nth i l 0 * d).
Proof.
  rewrite sum_as_sum_upto, length_map. apply sum_upto_ext. intros i Hi.
  apply (nth_map_default0 (fun y => y * d)). exact Hi.
Qed.

(** X15.  Two ceilings on the scattering rate of line 223, for
    non-negative atom densities and rates: it never exceeds half the
    decay rate times the number of atoms on the grid (every atom
    saturated), nor the unsaturated rate, the sum of atoms times pumping
    rate over the bins. *)
Theorem scattering_rate_ceilings (Gamma_Ex d : R) (N_om Rs : list R) :
  0 < Gamma_Ex -> 0 <= d -> nonneg N_om -> nonneg Rs ->
  length N_om = length Rs ->
  exists Fr Sc,
    Frac_omega_0 Gamma_Ex Rs = Ok Fr /\
    Gamma_Sc Gamma_Ex d N_om Fr = Ok Sc /\
    0 <= Sc /\
    Sc <= Gamma_Ex / 2 * np.sum (map (fun y => y * d) N_om) /\
    Sc <= np.dot (map (fun y => y * d) N_om) Rs.
Proof.
  intros HG Hd HN HRs Hlen.
  exists (map (Frac Gamma_Ex) Rs),
    (Gamma_Ex * sum_upto (length N_om)
       (fun i => nth i N_om 0 * d * nth i (map (Frac Gamma_Ex) Rs) 0)).
  split; [apply Frac_omega_0_nonneg; assumption|].
  split; [apply Gamma_Sc_formula; rewrite length_map; exact Hlen|].
  assert (HF : forall i, (i < length N_om)%nat ->
            nth i (map (Frac Gamma_Ex) Rs) 0 = Frac Gamma_Ex (nth i Rs 0)).
  { intros i Hi. apply nth_map_default0. lia. }
  assert (Hnd : forall i, 0 <= nth i N_om 0 * d).
  { intros i. apply Rmult_le_pos; [apply nonneg_nth, HN | exact Hd]. }
  split; [|split].
  - apply Rmult_le_pos; [lra|]. apply sum_upto_nonneg. intros i Hi.
    rewrite HF by exact Hi. apply Rmult_le_pos; [apply Hnd|].
    apply Frac_bounds; [exact HG | apply nonneg_nth, HRs].
  - rewrite sum_scaled_as_sum_upto, <- !sum_upto_scale.
    apply sum_upto_le. intros i Hi. rewrite HF by exact Hi.
    pose proof (Frac_bounds Gamma_Ex (nth i Rs 0) HG (nonneg_nth Rs i HRs))
      as [_ Hhalf].
    pose proof (Hnd i) as Hi0.
    replace (Gamma_Ex * (nth i N_om 0 * d * Frac Gamma_Ex (nth i Rs 0)))
      with (Gamma_Ex * (nth i N_om 0 * d) * Frac Gamma_Ex (nth i Rs 0))
      by ring.
    replace (Gamma_Ex / 2 * (nth i N_om 0 * d))
      with (Gamma_Ex * (nth i N_om 0 * d) * (1 / 2)) by field.
    apply Rmult_le_compat_l; [apply Rmult_le_pos; lra | lra].
  - rewrite dot_as_sum, length_map, <- sum_upto_scale.
    apply sum_upto_le. intros i Hi. rewrite HF by exact Hi.
    rewrite (nth_map_default0 (fun y => y * d)) by exact Hi.
    pose proof (Gamma_Frac_le Gamma_Ex (nth i Rs 0) HG (nonneg_nth Rs i HRs)).
    pose proof (Hnd i).
    replace (Gamma_Ex * (nth i N_om 0 * d * Frac Gamma_Ex (nth i Rs 0)))
      with (nth i N_om 0 * d * (Gamma_Ex * Frac Gamma_Ex (nth i Rs 0)))
      by ring.
    apply Rmult_le_compat_l; assumption.
Qed.

Lemma scattering_rate_ceilings_witness :
  0 < 2 /\ 0 <= 1 /\ nonneg [3; 4] /\ nonneg [1; 5] /\
  length [3; 4] = length [1; 5] /\
  exists Fr Sc,
    Frac_omega_0 2 [1; 5] = Ok Fr /\
    Gamma_Sc 2 1 [3; 4] Fr = Ok Sc /\
    0 <= Sc /\
    Sc <= 2 / 2 * np.sum (map (fun y => y * 1) [3; 4]) /\
    Sc <= np.dot (map (fun y => y * 1) [3; 4]) [1; 5].
Proof.
  assert (H1 : 0 < 2) by lra. assert (H2 : 0 <= 1) by lra.
  assert (H3 : nonneg [3; 4]) by (repeat constructor; lra).
  assert (H4 : nonneg [1; 5]) by (repeat constructor; lra).
  assert (H5 : length [3; 4] = length [1; 5]) by reflexivity.
  repeat (split; [assumption|]).
  exact (scattering_rate_ceilings 2 1 [3; 4] [1; 5] H1 H2 H3 H4 H5).
Defined.

(** X16.  The scattering rate is linear in the number of atoms: with
    [k * N_Inhom] atoms the inhomogeneous profile of line 219 is [k]
    times the profile and the scattering rate of line 223 is [k] times
    the rate, the excited fractions being unchanged. *)
Theorem scattering_rate_linear_in_atoms
    (k N_Inhom Gamma_In Gamma_Ex d : R) (tot Fr : list R) :
  0 < Gamma_In -> length Fr = length tot ->
  exists n Sc,
    N_Inhom_omega_0 N_Inhom Gamma_In tot = Ok n /\
    Gamma_Sc Gamma_Ex d n Fr = Ok Sc /\
    N_Inhom_omega_0 (k * N_Inhom) Gamma_In tot
      = Ok (map (fun y => k * y) n) /\
    Gamma_Sc Gamma_Ex d (map (fun y => k * y) n) Fr = Ok (k * Sc).
Proof.
  intros HG Hlen.
  set (L := map (fun x => Lorentz x 0 Gamma_In) tot).
  assert (HL : length L = length Fr) by (unfold L; rewrite length_map; lia).
  exists (map (fun y => N_Inhom * y) L),
    (Gamma_Ex * sum_upto (length (map (fun y => N_Inhom * y) L))
       (fun i => nth i (map (fun y => N_Inhom * y) L) 0 * d * nth i Fr 0)).
  split; [apply N_Inhom_omega_0_Ok, HG|].
  split; [apply Gamma_Sc_formula; rewrite length_map; exact HL|].
  split.
  - rewrite N_Inhom_omega_0_Ok by exact HG. fold L. f_equal.
    rewrite map_map. apply map_ext. intros y. ring.
  - rewrite Gamma_Sc_formula by (rewrite !length_map; exact HL).
    f_equal. rewrite !length_map.
    rewrite <- Rmult_assoc, (Rmult_comm k Gamma_Ex), Rmult_assoc.
    f_equal. rewrite <- sum_upto_scale. apply sum_upto_ext. intros i _.
    rewrite (nth_scaled k). ring.
Qed.

Lemma scattering_rate_linear_in_atoms_witness :
  0 < 4 /\ length [1; 2] = length [0; 1] /\
  exists n Sc,
    N_Inhom_omega_0 5 4 [0; 1] = Ok n /\
    Gamma_Sc 2 1 n [1; 2] = Ok Sc /\
    N_Inhom_omega_0 (3 * 5) 4 [0; 1] = Ok (map (fun y => 3 * y) n) /\
    Gamma_Sc 2 1 (map (fun y => 3 * y) n) [1; 2] = Ok (3 * Sc).
Proof.
  assert (H1 : 0 < 4) by lra.
  assert (H2 : length [1; 2] = length [0; 1]) by reflexivity.
  repeat (split; [assumption|]).
  exact (scattering_rate_linear_in_atoms 3 5 4 2 1 [0; 1] [1; 2] H1 H2).
Defined.

(** X17.  The printed fraction of atoms available (line 225) does not
    depend on the number of atoms: it is the sum over the combined axis
    of the inhomogeneous line shape times the bin width, between 0 and
    the number of bins times the peak of the line shape times the bin
    width.  With no atoms at all the division is 0/0 and the print shows
    [nan]. *)
Theorem fraction_available_is_line_shape_sum
    (N_Inhom Gamma_In d : R) (tot : list R) :
  0 < Gamma_In -> 0 <= d ->
  exists n,
    N_Inhom_omega_0 N_Inhom Gamma_In tot = Ok n /\
    (N_Inhom = 0 -> fraction_available N_Inhom d n = NotReal) /\
    (N_Inhom <> 0 ->
     exists f,
       fraction_available N_Inhom d n = Ok f /\
       f = sum_upto (length tot)
             (fun i => Lorentz (nth i tot 0) 0 Gamma_In * d) /\
       0 <= f <= INR (length tot) * (1 / (PI * (Gamma_In / 2)) * d)).
Proof.
  intros HG Hd.
  exists (map (fun y => N_Inhom * y) (map (fun x => Lorentz x 0 Gamma_In) tot)).
  split; [apply N_Inhom_omega_0_Ok, HG|].
  assert (S : np.sum (map (fun y => y * d)
                (map (fun y => N_Inhom * y)
                   (map (fun x => Lorentz x 0 Gamma_In) tot)))
              = N_Inhom * sum_upto (length tot)
                   (fun i => Lorentz (nth i tot 0) 0 Gamma_In * d)).
  { rewrite sum_scaled_as_sum_upto, !length_map, <- sum_upto_scale.
    apply sum_upto_ext. intros i Hi.
    rewrite scaled_Lorentz_nth by exact Hi. ring. }
  split.
  - intros ->. unfold fraction_available. rewrite S, Rmult_0_l.
    unfold np.divide1. destruct (Req_dec_T 0 0) as [_|F]; [|contradiction].
    destruct (Req_dec_T 0 0) as [_|F]; [reflexivity | contradiction].
  - intros HN.
    exists (sum_upto (length tot)
              (fun i => Lorentz (nth i tot 0) 0 Gamma_In * d)).
    split; [|split; [reflexivity|split]].
    + unfold fraction_available. rewrite S. unfold np.divide1.
      destruct (Req_dec_T N_Inhom 0) as [F|_]; [contradiction|].
      f_equal. field. exact HN.
    + apply sum_upto_nonneg. intros i _.
      apply Rmult_le_pos; [apply Rlt_le, Lorentz_pos, HG | exact Hd].
    + transitivity (sum_upto (length tot)
                      (fun _ => 1 / (PI * (Gamma_In / 2)) * d)).
      * apply sum_upto_le. intros i _.
        apply Rmult_le_compat_r; [exact Hd|].
        rewrite <- (Lorentz_peak_value 0 Gamma_In HG).
        apply Lorentz_le_peak, HG.
      * clear. induction (length tot) as [|n IH];
          [rewrite sum_upto_0; simpl; lra|].
        rewrite sum_upto_S, S_INR. lra.
Qed.

Lemma fraction_available_is_line_shape_sum_witness :
  0 < 4 /\ 0 <= 1 /\
  exists n,
    N_Inhom_omega_0 5 4 [0; 1] = Ok n /\
    (5 = 0 -> fraction_available 5 1 n = NotReal) /\
    (5 <> 0 ->
     exists f,
       fraction_available 5 1 n = Ok f /\
       f = sum_upto (length [0; 1])
             (fun i => Lorentz (nth i [0; 1] 0) 0 4 * 1) /\
       0 <= f <= INR (length [0; 1]) * (1 / (PI * (4 / 2)) * 1)).
Proof.
  assert (H1 : 0 < 4) by lra. assert (H2 : 0 <= 1) by lra.
  repeat (split; [assumption|]).
  exact (fraction_available_is_line_shape_sum 5 4 1 [0; 1] H1 H2).
Defined.

(** X18.  The saturation formula of line 220 can be undone: the pumping
    rate is recovered from the excited fraction [f] as
    [Gamma_Ex * f / (1 - 2 f)], and every fraction in [[0, 1/2)] is the
    excited fraction of exactly that non-negative rate. *)
Theorem saturation_round_trip (Gamma_Ex : R) :
  0 < Gamma_Ex ->
  (forall r, 0 <= r ->
     Gamma_Ex * Frac Gamma_Ex r / (1 - 2 * Frac Gamma_Ex r) = r) /\
  (forall f, 0 <= f < 1 / 2 ->
     0 <= Gamma_Ex * f / (1 - 2 * f) /\
     Frac Gamma_Ex (Gamma_Ex * f / (1 - 2 * f)) = f).
Proof.
  intros HG. split.
  - intros r Hr. unfold Frac. field. split; lra.
  - intros f [Hf0 Hf1]. split.
    + apply Rmult_le_pos; [apply Rmult_le_pos; lra|].
      apply Rlt_le, Rinv_0_lt_compat. lra.
    + unfold Frac. field. split; lra.
Qed.

Lemma saturation_round_trip_witness :
  0 < 2 /\
  (forall r, 0 <= r -> 2 * Frac 2 r / (1 - 2 * Frac 2 r) = r) /\
  (forall f, 0 <= f < 1 / 2 ->
     0 <= 2 * f / (1 - 2 * f) /\ Frac 2 (2 * f / (1 - 2 * f)) = f).
Proof.
  assert (H1 : 0 < 2) by lra.
  split; [assumption|]. exact (saturation_round_trip 2 H1).
Defined.

(** ** The optical cell *)

Lemma nm_pos : 0 < nm.
Proof. unfold nm. apply Rdiv_lt_0_compat; [lra | apply pow_lt; lra]. Qed.

(** X19.  What the optical cell (lines 94 to 103) does on every input: a
    zero frequency raises [ZeroDivisionError] at line 95; otherwise a
    negative product of the two half-widths gives a [nan] waist, a zero
    product an infinite intensity, and a positive product a waist, an
    intensity and a flux over the reals. *)
Theorem optical_properties_outcome (nu_Hz power a b : R) :
  (nu_Hz = 0 -> optical_properties nu_Hz power a b = Raise ZeroDivisionError)
  /\ (nu_Hz <> 0 -> a * b <= 0 ->
      optical_properties nu_Hz power a b = NotReal)
  /\ (nu_Hz <> 0 -> 0 < a * b ->
      exists o, optical_properties nu_Hz power a b = Ok o /\ 0 < op_w o).
Proof.
  unfold optical_properties. split; [|split].
  - intros ->. destruct (Req_dec_T 0 0) as [_|F]; [reflexivity | contradiction].
  - intros Hnu Hab. destruct (Req_dec_T nu_Hz 0) as [F|_]; [contradiction|].
    unfold np.sqrt. destruct (Rlt_dec (2 * a * b) 0) as [_|Hge];
      [reflexivity|].
    assert (E : 2 * a * b = 0) by lra.
    cbn [bind]. rewrite E, sqrt_0. unfold np.divide1.
    destruct (Req_dec_T (0 ^ 2) 0) as [_|F]; [reflexivity|].
    exfalso. apply F. simpl. ring.
  - intros Hnu Hab. destruct (Req_dec_T nu_Hz 0) as [F|_]; [contradiction|].
    rewrite np_sqrt_Ok by lra. cbn [bind].
    assert (Hw : 0 < sqrt (2 * a * b)) by (apply sqrt_lt_R0; lra).
    unfold np.divide1.
    destruct (Req_dec_T (sqrt (2 * a * b) ^ 2) 0) as [F|_].
    { exfalso. simpl in F. nra. }
    cbn [bind]. pose proof h_pos.
    destruct (Req_dec_T (h * nu_Hz) 0) as [F|_]; [exfalso; nra|].
    cbn [bind]. eexists. split; [reflexivity|]. exact Hw.
Qed.

(** X20.  Power balance of the optical cell: with a non-zero frequency
    and a positive product of half-widths, the squared waist is twice
    that product, intensity times beam area is the power, flux times
    photon energy times beam area is the power in watts, wavelength
    times frequency is the speed of light, and the flux is the one
    [photon_flux] computes from the same frequency, power and waist. *)
Theorem optical_power_balance (nu_Hz power a b : R) (p : params) :
  nu_Hz <> 0 -> 0 < a * b ->
  exists o, optical_properties nu_Hz power a b = Ok o /\
    op_w o ^ 2 = 2 * a * b /\
    op_I o * (PI * op_w o ^ 2) = power /\
    op_Phi o * (h * nu_Hz) * (PI * op_w o ^ 2) = power * mW /\
    op_lam o * nm * nu_Hz = c /\
    (nu p = nu_Hz -> P p = power -> w p = op_w o ->
     photon_flux p = Ok (op_Phi o)).
Proof.
  intros Hnu Hab. unfold optical_properties.
  destruct (Req_dec_T nu_Hz 0) as [F|_]; [contradiction|].
  rewrite np_sqrt_Ok by lra. cbn [bind].
  assert (Hw : 0 < sqrt (2 * a * b)) by (apply sqrt_lt_R0; lra).
  assert (Hw2 : sqrt (2 * a * b) ^ 2 = 2 * a * b) by (apply pow2_sqrt; lra).
  unfold np.divide1.
  destruct (Req_dec_T (sqrt (2 * a * b) ^ 2) 0) as [F|Hw0]; [lra|].
  cbn [bind]. pose proof h_pos as Hh. pose proof PI_RGT_0 as Hpi.
  destruct (Req_dec_T (h * nu_Hz) 0) as [F|Hhn]; [exfalso; nra|].
  cbn [bind]. eexists. split; [reflexivity|]. cbn [op_w op_I op_Phi op_lam].
  pose proof nm_pos as Hnm.
  split; [exact Hw2|]. rewrite Hw2.
  assert (Hab2 : 2 * a * b <> 0) by lra.
  assert (Hh0 : h <> 0) by lra.
  assert (Hpi0 : PI <> 0) by lra. assert (Hnm0 : nm <> 0) by lra.
  set (A := 2 * a * b) in *.
  split; [field; split; assumption|].
  split; [field; repeat split; assumption|].
  split; [field; split; assumption|].
  intros E1 E2 E3. unfold photon_flux, np.divide1. rewrite E1, E2, E3, Hw2.
  destruct (Req_dec_T A 0) as [F|_]; [contradiction|].
  cbn [bind].
  destruct (Req_dec_T (h * nu_Hz) 0) as [F|_]; [contradiction|].
  reflexivity.
Qed.

Lemma optical_power_balance_witness :
  1 <> 0 /\ 0 < 2 * 2 /\
  exists o, optical_properties 1 3 2 2 = Ok o /\
    op_w o ^ 2 = 2 * 2 * 2 /\
    op_I o * (PI * op_w o ^ 2) = 3 /\
    op_Phi o * (h * 1) * (PI * op_w o ^ 2) = 3 * mW /\
    op_lam o * nm * 1 = c /\
    (nu example_params = 1 -> P example_params = 3 ->
     w example_params = op_w o ->
     photon_flux example_params = Ok (op_Phi o)).
Proof.
  assert (H1 : 1 <> 0) by lra. assert (H2 : 0 < 2 * 2) by lra.
  repeat (split; [assumption|]).
  exact (optical_power_balance 1 3 2 2 example_params H1 H2).
Defined.

(** ** The crystal cell *)

Lemma optical_properties_Ok (nu_Hz power a b : R) :
  nu_Hz <> 0 -> 0 < a * b ->
  optical_properties nu_Hz power a b
  = Ok (mkOptics (c / nu_Hz / nm) (sqrt (2 * a * b))
          (power / PI / sqrt (2 * a * b) ^ 2)
          (power / PI / sqrt (2 * a * b) ^ 2 * mW / (h * nu_Hz))
          (47 / 10 ^ 20
           * (power / PI / sqrt (2 * a * b) ^ 2 * mW / (h * nu_Hz)))).
Proof.
  intros Hnu Hab. unfold optical_properties.
  destruct (Req_dec_T nu_Hz 0) as [F|_]; [contradiction|].
  rewrite np_sqrt_Ok by lra. cbn [bind].
  assert (Hw2 : sqrt (2 * a * b) ^ 2 = 2 * a * b) by (apply pow2_sqrt; lra).
  unfold np.divide1.
  destruct (Req_dec_T (sqrt (2 * a * b) ^ 2) 0) as [F|_]; [lra|].
  cbn [bind]. pose proof h_pos.
  destruct (Req_dec_T (h * nu_Hz) 0) as [F|_]; [exfalso; nra|].
  reflexivity.
Qed.

Lemma getitem_Ok (l : list R) (i : nat) :
  (i < length l)%nat -> getitem l i = Np (Ok (nth i l 0)).
Proof.
  intros Hi. unfold getitem. rewrite (nth_error_nth' l 0 Hi). reflexivity.
Qed.

Lemma getitem_IndexError (l : list R) (i : nat) :
  (length l <= i)%nat -> getitem l i = IndexError.
Proof.
  intros Hi. unfold getitem.
  destruct (nth_error l i) eqn:E; [|reflexivity].
  exfalso. assert (nth_error l i <> None) by congruence.
  apply nth_error_Some in H. lia.
Qed.

Lemma broadcast_mismatch (xs ys : list R) :
  length xs <> length ys -> length xs <> 1%nat -> length ys <> 1%nat ->
  np.broadcast xs ys = Raise ValueError.
Proof.
  intros Hne Hx Hy. unfold np.broadcast.
  destruct (Nat.eqb_spec (length xs) (length ys)) as [E|_]; [contradiction|].
  destruct xs as [|x [|x' xs]]; destruct ys as [|y [|y' ys]];
    simpl in *; try reflexivity; try contradiction; exfalso; auto.
Qed.

Lemma weighted_sum_bounds (lo hi : R) (xs ys : list R) :
  length xs = length ys ->
  Forall (fun x => lo <= x <= hi) xs -> nonneg ys ->
  lo * np.sum ys
  <= np.sum (map (fun p => fst p * snd p) (combine xs ys))
  <= hi * np.sum ys.
Proof.
  revert ys. induction xs as [|x xs IH]; intros ys Hlen Hx Hy.
  - destruct ys; [|discriminate Hlen]. simpl. unfold np.sum. simpl. lra.
  - destruct ys as [|y ys]; [discriminate Hlen|].
    inversion Hx as [|? ? Hx1 Hx2]; subst.
    inversion Hy as [|? ? Hy1 Hy2]; subst.
    simpl. rewrite !sum_cons. cbn [fst snd].
    specialize (IH ys (eq_add_S _ _ Hlen) Hx2 Hy2). nra.
Qed.

Lemma crystal_properties_Ok
    (L rho_SrF2 prop : R) (m_Sm mole_fraction : list R) (w_cm : R) :
  length m_Sm = length mole_fraction ->
  (4 <= length mole_fraction)%nat ->
  np.sum (map (fun p => fst p * snd p) (combine m_Sm mole_fraction)) <> 0 ->
  crystal_properties L rho_SrF2 prop m_Sm mole_fraction w_cm
  = let m_av :=
      np.sum (map (fun p => fst p * snd p) (combine m_Sm mole_fraction)) in
    let n := rho_SrF2 * prop / m_av * NA in
    Np (Ok (mkCrystal m_av n
              ((nth 1 mole_fraction 0 + nth 3 mole_fraction 0)
               * n * L * PI * w_cm ^ 2))).
Proof.
  intros Hlen H4 Hs. unfold crystal_properties.
  rewrite multiply_same_length by exact Hlen. cbn [bind_ix].
  rewrite !getitem_Ok by lia. cbn [bind_ix].
  unfold np.divide1.
  destruct (Req_dec_T _ 0) as [F|_]; [contradiction|]. reflexivity.
Qed.

(** X21.  The crystal cell (lines 141 to 145) on usable isotope tables:
    with as many masses as mole fractions, at least four of them, masses
    between [lo > 0] and [hi], and non-negative fractions not all zero,
    the cell runs through; the average mass lies between [lo] and [hi]
    times the sum of the fractions; number density times average mass is
    the Sm mass density times Avogadro's number; and the atom count is
    the share of the second and fourth isotope in one beam volume. *)
Theorem crystal_average_mass_and_density
    (L rho_SrF2 prop lo hi : R) (m_Sm mole_fraction : list R) (w_cm : R) :
  length m_Sm = length mole_fraction ->
  (4 <= length mole_fraction)%nat ->
  0 < lo -> Forall (fun m => lo <= m <= hi) m_Sm ->
  nonneg mole_fraction -> 0 < np.sum mole_fraction ->
  exists cr,
    crystal_properties L rho_SrF2 prop m_Sm mole_fraction w_cm = Np (Ok cr)
    /\ lo * np.sum mole_fraction <= cr_m_Sm_av cr
       <= hi * np.sum mole_fraction
    /\ cr_n_Sm cr * cr_m_Sm_av cr = rho_SrF2 * prop * NA
    /\ cr_N_Inhom cr
       = (nth 1 mole_fraction 0 + nth 3 mole_fraction 0)
         * cr_n_Sm cr * (L * (PI * w_cm ^ 2)).
Proof.
  intros Hlen H4 Hlo Hm Hf Hs.
  pose proof (weighted_sum_bounds lo hi m_Sm mole_fraction Hlen Hm Hf) as B.
  set (m_av :=
         np.sum (map (fun p => fst p * snd p) (combine m_Sm mole_fraction)))
    in *.
  assert (Hav : 0 < m_av).
  { apply Rlt_le_trans with (lo * np.sum mole_fraction); [|apply B].
    apply Rmult_lt_0_compat; assumption. }
  eexists. split.
  - rewrite crystal_properties_Ok; [reflexivity | assumption ..|].
    fold m_av. lra.
  - cbn [cr_m_Sm_av cr_n_Sm cr_N_Inhom]. fold m_av.
    split; [exact B|]. split; [field; lra | ring].
Qed.

Lemma crystal_average_mass_and_density_witness :
  length [1; 2; 3; 4] = length [1; 1; 1; 1] /\
  (4 <= length [1; 1; 1; 1])%nat /\
  0 < 1 /\ Forall (fun m => 1 <= m <= 4) [1; 2; 3; 4] /\
  nonneg [1; 1; 1; 1] /\ 0 < np.sum [1; 1; 1; 1] /\
  exists cr,
    crystal_properties 1 2 3 [1; 2; 3; 4] [1; 1; 1; 1] 5 = Np (Ok cr)
    /\ 1 * np.sum [1; 1; 1; 1] <= cr_m_Sm_av cr <= 4 * np.sum [1; 1; 1; 1]
    /\ cr_n_Sm cr * cr_m_Sm_av cr = 2 * 3 * NA
    /\ cr_N_Inhom cr
       = (nth 1 [1; 1; 1; 1] 0 + nth 3 [1; 1; 1; 1] 0)
         * cr_n_Sm cr * (1 * (PI * 5 ^ 2)).
Proof.
  assert (H1 : length [1; 2; 3; 4] = length [1; 1; 1; 1]) by reflexivity.
  assert (H2 : (4 <= length [1; 1; 1; 1])%nat) by (simpl; lia).
  assert (H3 : 0 < 1) by lra.
  assert (H4 : Forall (fun m => 1 <= m <= 4) [1; 2; 3; 4])
    by (repeat constructor; lra).
  assert (H5 : nonneg [1; 1; 1; 1]) by (repeat constructor; lra).
  assert (H6 : 0 < np.sum [1; 1; 1; 1]) by (unfold np.sum; simpl; lra).
  repeat (split; [assumption|]).
  exact (crystal_average_mass_and_density 1 2 3 1 4 [1; 2; 3; 4]
           [1; 1; 1; 1] 5 H1 H2 H3 H4 H5 H6).
Defined.

(** X22.  How the crystal cell fails.  Tables of different lengths,
    neither of length one, make the product of line 143 raise
    [ValueError]; tables of one length with fewer than four isotopes
    make line 145 raise [IndexError], whatever the average mass; with
    four or more, a zero average mass leaves an infinite or undefined
    density. *)
Theorem crystal_properties_failures
    (L rho_SrF2 prop : R) (m_Sm mole_fraction : list R) (w_cm : R) :
  (length m_Sm <> length mole_fraction ->
   length m_Sm <> 1%nat -> length mole_fraction <> 1%nat ->
   crystal_properties L rho_SrF2 prop m_Sm mole_fraction w_cm
   = Np (Raise ValueError)) /\
  (length m_Sm = length mole_fraction ->
   (length mole_fraction < 4)%nat ->
   crystal_properties L rho_SrF2 prop m_Sm mole_fraction w_cm
   = IndexError) /\
  (length m_Sm = length mole_fraction ->
   (4 <= length mole_fraction)%nat ->
   np.sum (map (fun p => fst p * snd p) (combine m_Sm mole_fraction)) = 0 ->
   crystal_properties L rho_SrF2 prop m_Sm mole_fraction w_cm
   = Np NotReal).
Proof.
  unfold crystal_properties. split; [|split].
  - intros Hne H1 H2. unfold np.multiply.
    rewrite broadcast_mismatch by assumption. reflexivity.
  - intros Hlen H4. rewrite multiply_same_length by exact Hlen.
    cbn [bind_ix].
    destruct (Nat.lt_ge_cases 1 (length mole_fraction)) as [H1|H1].
    + rewrite (getitem_Ok _ 1) by exact H1. cbn [bind_ix].
      rewrite (getitem_IndexError _ 3) by lia. reflexivity.
    + rewrite (getitem_IndexError _ 1) by exact H1. reflexivity.
  - intros Hlen H4 Hs. rewrite multiply_same_length by exact Hlen.
    cbn [bind_ix]. rewrite !getitem_Ok by lia. cbn [bind_ix].
    rewrite Hs. unfold np.divide1.
    destruct (Req_dec_T 0 0) as [_|F]; [reflexivity | contradiction].
Qed.

(** X23.  The number of resonant atoms times the photon flux does not
    depend on the beam waist: a wider beam holds more atoms and spreads
    the same power thinner.  For two pairs of half-widths and otherwise
    equal inputs, the products of the atom count of line 145 and the
    flux of line 99 agree. *)
Theorem atoms_times_flux_independent_of_waist
    (nu_Hz power a b a' b' L rho_SrF2 prop : R)
    (m_Sm mole_fraction : list R) :
  nu_Hz <> 0 -> 0 < a * b -> 0 < a' * b' ->
  length m_Sm = length mole_fraction ->
  (4 <= length mole_fraction)%nat ->
  np.sum (map (fun p => fst p * snd p) (combine m_Sm mole_fraction)) <> 0 ->
  exists o o' cr cr',
    optical_properties nu_Hz power a b = Ok o /\
    optical_properties nu_Hz power a' b' = Ok o' /\
    crystal_properties L rho_SrF2 prop m_Sm mole_fraction (op_w o)
      = Np (Ok cr) /\
    crystal_properties L rho_SrF2 prop m_Sm mole_fraction (op_w o')
      = Np (Ok cr') /\
    cr_n_Sm cr = cr_n_Sm cr' /\
    cr_N_Inhom cr * op_Phi o = cr_N_Inhom cr' * op_Phi o'.
Proof.
  intros Hnu Hab Hab' Hlen H4 Hs.
  do 4 eexists.
  split; [apply optical_properties_Ok; assumption|].
  split; [apply optical_properties_Ok; assumption|].
  split; [apply crystal_properties_Ok; assumption|].
  split; [apply crystal_properties_Ok; assumption|].
  cbn [cr_n_Sm cr_N_Inhom op_Phi op_w]. split; [reflexivity|].
  rewrite !pow2_sqrt by lra.
  pose proof h_pos. pose proof PI_RGT_0.
  set (A := 2 * a * b). set (A' := 2 * a' * b').
  assert (A <> 0) by (unfold A; lra). assert (A' <> 0) by (unfold A'; lra).
  set (m_av :=
         np.sum (map (fun p => fst p * snd p) (combine m_Sm mole_fraction)))
    in *.
  field. repeat split; try assumption; lra.
Qed.

Lemma atoms_times_flux_independent_of_waist_witness :
  1 <> 0 /\ 0 < 2 * 2 /\ 0 < 3 * 1 /\
  length [1; 2; 3; 4] = length [1; 1; 1; 1] /\
  (4 <= length [1; 1; 1; 1])%nat /\
  np.sum (map (fun p => fst p * snd p)
            (combine [1; 2; 3; 4] [1; 1; 1; 1])) <> 0 /\
  exists o o' cr cr',
    optical_properties 1 3 2 2 = Ok o /\
    optical_properties 1 3 3 1 = Ok o' /\
    crystal_properties 1 2 3 [1; 2; 3; 4] [1; 1; 1; 1] (op_w o)
      = Np (Ok cr) /\
    crystal_properties 1 2 3 [1; 2; 3; 4] [1; 1; 1; 1] (op_w o')
      = Np (Ok cr') /\
    cr_n_Sm cr = cr_n_Sm cr' /\
    cr_N_Inhom cr * op_Phi o = cr_N_Inhom cr' * op_Phi o'.
Proof.
  assert (H1 : 1 <> 0) by lra. assert (H2 : 0 < 2 * 2) by lra.
  assert (H3 : 0 < 3 * 1) by lra.
  assert (H4 : length [1; 2; 3; 4] = length [1; 1; 1; 1]) by reflexivity.
  assert (H5 : (4 <= length [1; 1; 1; 1])%nat) by (simpl; lia).
  assert (H6 : np.sum (map (fun p => fst p * snd p)
                         (combine [1; 2; 3; 4] [1; 1; 1; 1])) <> 0)
    by (unfold np.sum; simpl; lra).
  repeat (split; [assumption|]).
  exact (atoms_times_flux_independent_of_waist 1 3 2 2 3 1 1 2 3
           [1; 2; 3; 4] [1; 1; 1; 1] H1 H2 H3 H4 H5 H6).
Defined.
